(** * Case-based-reasoning augmentation for the ELECTRA fallacy classifier

    A shallow embedding of [code/electra.py]: the template that builds the
    augmented text of a dataset row, the loop that queries the retrievers
    for every row, the two loss computations of the classifier and of its
    training wrapper, the result bundle writer and the driver
    [do_train_process].

    Python values are embedded with the types the script gives them:
    strings as [string], dictionaries and pandas rows as [gmap string _],
    lists as [list], optional arguments as [option].  Exceptions are
    explicit: a computation returns a [result], and a computation that
    also calls into a library (pandas, sklearn, transformers, joblib, the
    retriever) is a value of [M], which records those calls in order. *)

From Stdlib Require Import QArith Ascii String.
From stdpp Require Import base option list strings gmap.

(** ** Python runtime: exceptions, results and call traces *)

Module Py.

(** The exception classes the script can meet.  [SystemExit] is what
    [exit()] raises; it derives from [BaseException] only, so a clause
    [except Exception] lets it through. *)
Inductive exn : Type :=
| KeyError (key : string)
| UnboundLocalError (name : string)
| ValueError (msg : string)
| TypeError (msg : string)
| AttributeError (msg : string)
| RuntimeError (msg : string)
| SystemExit.

Definition is_Exception (e : exn) : bool :=
  match e with
  | SystemExit => false
  | _ => true
  end.

(** [str(e)], what [print(e)] shows. *)
Definition str (e : exn) : string :=
  match e with
  | KeyError key => "'" +:+ key +:+ "'"
  | UnboundLocalError name =>
      "local variable '" +:+ name +:+ "' referenced before assignment"
  | ValueError msg | TypeError msg | AttributeError msg
  | RuntimeError msg => msg
  | SystemExit => ""
  end.

Inductive result (A : Type) : Type :=
| Ok (a : A)
| Raise (e : exn).
Arguments Ok {A} a.
Arguments Raise {A} e.

Global Instance result_ret : MRet result := λ A a, Ok a.
Global Instance result_bind : MBind result := λ A B f r,
  match r with
  | Ok a => f a
  | Raise e => Raise e
  end.

Definition is_Ok {A} (r : result A) : bool :=
  match r with Ok _ => true | Raise _ => false end.

(** [d[key]] on a dictionary or a pandas row. *)
Definition getitem {V} (d : gmap string V) (key : string) : result V :=
  match d !! key with
  | Some v => Ok v
  | None => Raise (KeyError key)
  end.

(** A [for] loop that rebinds one local variable in its body. *)
Fixpoint for_each {A S} (xs : list A) (body : S → A → result S) (s : S)
  : result S :=
  match xs with
  | [] => Ok s
  | x :: xs' => s' ← body s x; for_each xs' body s'
  end.

Fixpoint mapR {A B} (f : A → result B) (xs : list A) : result (list B) :=
  match xs with
  | [] => Ok []
  | x :: xs' => y ← f x; ys ← mapR f xs'; Ok (y :: ys)
  end.

(** [x in xs] for a list of strings. *)
Definition contains (xs : list string) (x : string) : bool :=
  bool_decide (x ∈ xs).

(** [os.path.join] of two components on a POSIX system. *)
Definition starts_with_slash (s : string) : bool :=
  match s with
  | String c _ => bool_decide (c = "/"%char)
  | EmptyString => false
  end.

Fixpoint ends_with_slash (s : string) : bool :=
  match s with
  | EmptyString => false
  | String c EmptyString => bool_decide (c = "/"%char)
  | String _ s' => ends_with_slash s'
  end.

Definition os_path_join (a b : string) : string :=
  if starts_with_slash b then b
  else if bool_decide (a = "") || ends_with_slash a then a +:+ b
  else a +:+ "/" +:+ b.

(** [s.replace(old, new)] for single characters. *)
Fixpoint replace (s : string) (old new : ascii) : string :=
  match s with
  | EmptyString => EmptyString
  | String c s' =>
      String (if bool_decide (c = old) then new else c) (replace s' old new)
  end.

End Py.
Export Py.

(** ** Configuration

    The fields of [wandb.config] the script reads; the values come from
    [parameters_dict]. *)

Record Config : Type := mkConfig {
  eval_only : bool;
  model_dir : option string;
  sep_token : string;
  retrievers : list string;
  feature : string;
  num_cases : nat;
  cbr_threshold : Q;
  data_dir : string;
  predictions_dir : string;
  batch_size : nat;
  learning_rate : Q;
  num_epochs : nat;
  classifier_dropout : Q;
  weight_decay : Q
}.

Definition checkpoint_for_adapter : string := "howey/electra-base-mnli".

Definition bad_classes : list string :=
  [ "prejudicial language";
    "fallacy of slippery slope";
    "slothful induction" ].

(** ** Rows and the augmentation template

    A row of a split read from CSV maps column names to text, and a
    split is the list of its rows: [df[name]] reads the column row by
    row and raises [KeyError] at a row that lacks it. *)

Abbreviation Row := (gmap string string).

Definition create_augmented_case
    (row : Row) (config : Config) (similar_cases : list string)
  : result string :=
  if contains ["text"; "explanations"; "goals"] (feature config) then
    augmented_case ← getitem row "text";
    for_each similar_cases
      (λ augmented_case similar_case,
         Ok (augmented_case
               +:+ (" " +:+ sep_token config +:+ " ") +:+ similar_case))
      augmented_case
  else if contains ["structure"; "counter"] (feature config) then
    augmented_case ← getitem row "text";
    for_each similar_cases
      (λ augmented_case similar_case,
         own ← getitem row (feature config);
         Ok (augmented_case
               +:+ (" " +:+ sep_token config +:+ " " +:+ own +:+ " "
                    +:+ sep_token config +:+ " " +:+ similar_case)))
      augmented_case
  else Raise (UnboundLocalError "augmented_case").

(** ** The retriever interface

    [retriever.py] is imported by the script and is not part of it: a
    retriever is taken as the function behind its one method.  Every
    element of the answer is read at the keys ["similar_case"] and
    ["similar_case_label"]. *)

Record CaseLabel : Type := mkCaseLabel {
  similar_case : string;
  similar_case_label : string
}.

Record Retriever : Type := mkRetriever {
  retrieve_similar_cases : string → nat → Q → result (list CaseLabel)
}.

(** A row once [augment_with_similar_cases] has set its three columns. *)
Record AugRow : Type := mkAugRow {
  base : Row;
  augmented_cases : string;
  similar_cases : list string;
  similar_cases_labels : list string
}.

(** ** sklearn's [LabelEncoder]

    [fit] keeps the sorted distinct labels ([numpy.unique]); [transform]
    maps a label to its position and rejects a label it has not seen;
    [inverse_transform] maps a position back. *)

Module LabelEncoder.

Record t : Type := mk { classes_ : list string }.

Fixpoint insert_unique (x : string) (l : list string) : list string :=
  match l with
  | [] => [x]
  | y :: l' =>
      match String.compare x y with
      | Lt => x :: y :: l'
      | Eq => y :: l'
      | Gt => y :: insert_unique x l'
      end
  end.

Definition unique (y : list string) : list string :=
  foldr insert_unique [] y.

Definition fit (y : list string) : t := mk (unique y).

Fixpoint index (classes : list string) (x : string) : option nat :=
  match classes with
  | [] => None
  | c :: classes' =>
      if bool_decide (c = x) then Some 0 else S <$> index classes' x
  end.

Definition unseen : exn := ValueError "y contains previously unseen labels".

Definition transform (le : t) (y : list string) : result (list nat) :=
  mapR (λ x, match index (classes_ le) x with
             | Some i => Ok i
             | None => Raise unseen
             end) y.

Definition inverse_transform (le : t) (y : list nat) : result (list string) :=
  mapR (λ i, match classes_ le !! i with
             | Some x => Ok x
             | None => Raise unseen
             end) y.

End LabelEncoder.

(** ** What the driver hands to the libraries *)

(** [PredictionOutput], the named tuple [trainer.predict] returns. *)
Record PredictionOutput : Type := mkPredictionOutput {
  predictions : list (list Q);
  label_ids : list nat;
  metrics : list (string * Q)
}.

(** The dictionary [save_results] fills, one field per key. *)
Record outputs_dict : Type := mkOutputs {
  out_note : string;
  out_label_encoder : LabelEncoder.t;
  out_meta : Config;
  out_predictions : option PredictionOutput;
  out_text : list string;
  out_augmented_cases : list string;
  out_similar_cases : list (list string);
  out_similar_cases_labels : list (list string)
}.

(** A row after [label_encoder.transform] has replaced its label. *)
Record EncRow : Type := mkEncRow {
  aug : AugRow;
  label : nat
}.

Record TrainingArguments : Type := mkTrainingArguments {
  output_dir : string;
  arg_learning_rate : Q;
  per_device_train_batch_size : nat;
  per_device_eval_batch_size : nat;
  num_train_epochs : nat;
  arg_weight_decay : Q
}.

(** ** Calls into libraries, in the order the script makes them *)

Inductive event : Type :=
| EPrint (s : string)
| EReadCsv (path : string)
| ENewRetriever (config : Config)
| ETqdm (total : nat)
| ERetrieve (case : string) (num : nat) (threshold : Q)
| EFit (y : list string)
| ETransform (y : list string)
| ETokenizerFromPretrained (path : option string)
| EModelFromPretrained (path : option string)
| ETokenize (texts : list string)
| ETrain (args : TrainingArguments)
| ESaveModel (path : string)
| EPredict
| EDump (value : outputs_dict) (filename : string).

Module Trace.

(** A computation: the calls it made, then how it ended. *)
Definition M (A : Type) : Type := list event * result A.

Global Instance M_ret : MRet M := λ A a, ([], Ok a).
Global Instance M_bind : MBind M := λ A B f m,
  match m.2 with
  | Ok a => let rest := f a in (m.1 ++ rest.1, rest.2)
  | Raise e => (m.1, Raise e)
  end.

Definition lift {A} (r : result A) : M A := ([], r).

(** A library call: recorded, then its outcome. *)
Definition call {A} (ev : event) (r : result A) : M A := ([ev], r).

Definition print (s : string) : M unit := call (EPrint s) (Ok ()).

(** [exit()]. *)
Definition exit {A} : M A := lift (Raise SystemExit).

(** [try: body  except Exception as e: handler e]. *)
Definition try_except {A} (body : M A) (handler : exn → M A) : M A :=
  match body.2 with
  | Ok a => body
  | Raise e =>
      if is_Exception e
      then let handled := handler e in (body.1 ++ handled.1, handled.2)
      else body
  end.

Fixpoint for_eachM {A S} (xs : list A) (body : S → A → M S) (s : S) : M S :=
  match xs with
  | [] => mret s
  | x :: xs' => s' ← body s x; for_eachM xs' body s'
  end.

Fixpoint mapM {A B} (f : A → M B) (xs : list A) : M (list B) :=
  match xs with
  | [] => mret []
  | x :: xs' => y ← f x; ys ← mapM f xs'; mret (y :: ys)
  end.

End Trace.
Export Trace.

(** ** The augmentation loop *)

(** The body of [for retriever in retrievers], on the two lists the row
    accumulates. *)
Definition query_retriever
    (row : Row) (config : Config)
    (acc : list string * list string) (retriever : Retriever)
  : M (list string * list string) :=
  try_except
    (case ← lift (getitem row (feature config));
     similar_cases_with_labels ←
       call (ERetrieve case (num_cases config) (cbr_threshold config))
            (retrieve_similar_cases retriever case
               (num_cases config) (cbr_threshold config));
     mret (acc.1 ++ map similar_case similar_cases_with_labels,
           acc.2 ++ map similar_case_label similar_cases_with_labels))
    (λ e, print (str e);; mret acc).

(** The body of [for _, row in df.iterrows()]. *)
Definition augment_row
    (retrievers : list Retriever) (config : Config) (row : Row) : M AugRow :=
  lists ← for_eachM retrievers (query_retriever row config) ([], []);
  augmented_case ← lift (create_augmented_case row config lists.1);
  mret (mkAugRow row augmented_case lists.1 lists.2).

Definition augment_with_similar_cases
    (df : list Row) (retrievers : list Retriever) (config : Config)
  : M (list AugRow) :=
  call (ETqdm (length df)) (Ok ());;
  mapM (augment_row retrievers config) df.

(** ** The classifier and its training wrapper

    Tensors and the layers that act on them belong to torch and to the
    pretrained encoder; they are taken as an interface.  Every operation
    may raise (a shape mismatch, for one). *)

Class Torch : Type := {
  Tensor : Type;
  Scalar : Type;
  (** [features[:, 0, :]] *)
  first_position : Tensor → result Tensor;
  (** [get_activation("gelu")] *)
  gelu : Tensor → result Tensor;
  (** [BCEWithLogitsLoss()(input, target)] *)
  BCEWithLogitsLoss : Tensor → Tensor → result Scalar;
  (** [CrossEntropyLoss()(input, target)] *)
  CrossEntropyLoss : Tensor → Tensor → result Scalar
}.

Module ElectraClassificationHead.
Section Head.
Context `{Torch}.

Record t : Type := mk {
  dense : Tensor → result Tensor;
  dropout : Tensor → result Tensor;
  out_proj : Tensor → result Tensor
}.

Definition forward (self : t) (features : Tensor) : result Tensor :=
  x ← first_position features;
  x ← dropout self x;
  x ← dense self x;
  x ← gelu x;
  x ← dropout self x;
  x ← out_proj self x;
  Ok x.
End Head.
End ElectraClassificationHead.

Module ElectraForSequenceClassification.
Section Model.
Context `{Torch}.

(** The arguments [forward] passes on to the encoder unchanged. *)
Record Shared : Type := mkShared {
  token_type_ids : option Tensor;
  position_ids : option Tensor;
  head_mask : option Tensor;
  inputs_embeds : option Tensor;
  output_attentions : option bool;
  output_hidden_states : option bool
}.

(** What the encoder returns: item [0], then the optional rest. *)
Record EncoderOutput : Type := mkEncoderOutput {
  last_hidden_state : Tensor;
  enc_hidden_states : option (list Tensor);
  enc_attentions : option (list Tensor)
}.

(** [discriminator_hidden_states[1:]] *)
Definition tail_items (o : EncoderOutput) : list (list Tensor) :=
  option_list (enc_hidden_states o) ++ option_list (enc_attentions o).

Record ModelConfig : Type := mkModelConfig {
  num_labels : nat;
  problem_type : option string;
  use_return_dict : bool
}.

Record t : Type := mk {
  config : ModelConfig;
  (** [self.electra(input_ids, attention_mask=..., ..., return_dict=...)] *)
  electra : option Tensor → option Tensor → Shared → bool
            → result EncoderOutput;
  (** [self.attention(query=..., key=..., value=...)], first item *)
  attention : Tensor → Tensor → Tensor → result Tensor;
  classifier : ElectraClassificationHead.t
}.

Record Args : Type := mkArgs {
  input_ids : option Tensor;
  attention_mask : option Tensor;
  input_ids_cbr : option Tensor;
  attention_mask_cbr : option Tensor;
  shared : Shared;
  labels : option Tensor;
  return_dict : option bool
}.

Definition no_shared : Shared := mkShared None None None None None None.

Record SequenceClassifierOutput : Type := mkSequenceClassifierOutput {
  loss : option Scalar;
  logits : Tensor;
  hidden_states : option (list Tensor);
  attentions : option (list Tensor)
}.

(** [forward] returns a plain tuple when [return_dict] is false. *)
Inductive Output : Type :=
| Tuple (loss : option Scalar) (logits : Tensor) (rest : list (list Tensor))
| Dict (o : SequenceClassifierOutput).

Definition forward (self : t) (a : Args) : result Output :=
  let return_dict :=
    match return_dict a with
    | Some b => b
    | None => use_return_dict (config self)
    end in
  discriminator_hidden_states ←
    electra self (input_ids a) (attention_mask a) (shared a) return_dict;
  let sequence_output := last_hidden_state discriminator_hidden_states in
  discriminator_hidden_states_cbr ←
    electra self (input_ids_cbr a) (attention_mask_cbr a) (shared a)
      return_dict;
  let sequence_output_cbr :=
    last_hidden_state discriminator_hidden_states_cbr in
  final_output ←
    attention self sequence_output sequence_output_cbr sequence_output_cbr;
  logits ← ElectraClassificationHead.forward (classifier self) final_output;
  loss ←
    match labels a with
    | Some labels =>
        match problem_type (config self) with
        | None => loss ← BCEWithLogitsLoss logits labels; Ok (Some loss)
        | Some _ => Ok None
        end
    | None => Ok None
    end;
  if negb return_dict then
    Ok (Tuple loss logits (tail_items discriminator_hidden_states))
  else
    Ok (Dict (mkSequenceClassifierOutput loss logits
                (enc_hidden_states discriminator_hidden_states)
                (enc_attentions discriminator_hidden_states))).

(** The loss and the logits an output carries. *)
Definition loss_of (out : Output) : option Scalar :=
  match out with
  | Tuple loss _ _ => loss
  | Dict o => loss o
  end.

Definition logits_of (out : Output) : Tensor :=
  match out with
  | Tuple _ logits _ => logits
  | Dict o => logits o
  end.

Definition with_loss (l : option Scalar) (out : Output) : Output :=
  match out with
  | Tuple _ logits rest => Tuple l logits rest
  | Dict o =>
      Dict (mkSequenceClassifierOutput l (logits o) (hidden_states o)
              (attentions o))
  end.

Definition without_labels (a : Args) : Args :=
  mkArgs (input_ids a) (attention_mask a) (input_ids_cbr a)
    (attention_mask_cbr a) (shared a) None (return_dict a).

(** The call [compute_loss] makes: four tensors, no labels. *)
Definition wrapper_call (ids mask ids_cbr mask_cbr : Tensor) : Args :=
  mkArgs (Some ids) (Some mask) (Some ids_cbr) (Some mask_cbr)
    no_shared None None.
End Model.
End ElectraForSequenceClassification.

Module CustomTrainer.
Import ElectraForSequenceClassification.
Section Trainer.
Context `{Torch}.

(** [outputs.get("logits")]: a tuple has no [get]. *)
Definition get_logits (outputs : Output) : result Tensor :=
  match outputs with
  | Dict o => Ok (logits o)
  | Tuple _ _ _ =>
      Raise (AttributeError "'tuple' object has no attribute 'get'")
  end.

(** The batch [inputs] is a dictionary of tensors.  The result is
    the loss, with the outputs when [return_outputs] is set. *)
Definition compute_loss
    (model : ElectraForSequenceClassification.t)
    (inputs : gmap string Tensor) (return_outputs : bool)
  : result (Scalar * option Output) :=
  input_ids ← getitem inputs "input_ids";
  attention_mask ← getitem inputs "attention_mask";
  input_ids_cbr ← getitem inputs "input_ids_cbr";
  attention_mask_cbr ← getitem inputs "attention_mask_cbr";
  outputs ←
    forward model
      (mkArgs (Some input_ids) (Some attention_mask)
         (Some input_ids_cbr) (Some attention_mask_cbr)
         no_shared None None);
  logits ← get_logits outputs;
  match inputs !! "labels" with
  | None => Raise (TypeError "cross_entropy_loss(): target is None")
  | Some labels =>
      loss ← CrossEntropyLoss logits labels;
      Ok (loss, if return_outputs then Some outputs else None)
  end.
End Trainer.
End CustomTrainer.

(** ** The driver

    The libraries the driver calls, with the state they keep (a loaded
    tokenizer, a model) left abstract. *)

Record Env : Type := mkEnv {
  Tokenizer : Type;
  Model : Type;
  Encoding : Type;
  (** [pd.read_csv(path)] *)
  read_csv : string → result (list Row);
  (** [SimCSE_Retriever(config)] *)
  SimCSE_Retriever : Config → result Retriever;
  (** [ElectraTokenizer.from_pretrained(path)] *)
  tokenizer_from_pretrained : option string → result Tokenizer;
  (** [ElectraForSequenceClassification.from_pretrained(path, ...)]; the
      second argument holds [num_labels] and [classifier_dropout] when
      they are given *)
  model_from_pretrained : option string → option (nat * Q) → result Model;
  (** [tokenizer(texts, truncation=True, padding="max_length")] *)
  tokenize : Tokenizer → list string → result Encoding;
  (** [trainer.train()], on the train and eval splits *)
  trainer_train :
    Model → TrainingArguments
    → Encoding * Encoding * list nat → Encoding * Encoding * list nat
    → result Model;
  (** [trainer.save_model(path)] *)
  trainer_save_model : Model → string → result unit;
  (** [trainer.predict(test)] *)
  trainer_predict :
    Model → Encoding * Encoding * list nat → result PredictionOutput;
  (** [joblib.dump(value, filename)] *)
  joblib_dump : outputs_dict → string → result unit;
  (** [datetime.today().isoformat()] *)
  today_isoformat : string
}.

(** The name [save_results] computes and binds to [file_name]. *)
Definition results_file_name (config : Config) (now : string) : string :=
  os_path_join (predictions_dir config)
    ("outputs_dict__" +:+ now +:+ ".joblib").

Definition save_results
    (env : Env) (config : Config) (label_encoder : LabelEncoder.t)
    (predictions : PredictionOutput) (test_df : list EncRow)
  : M unit :=
  let now := today_isoformat env in
  let note :=
    "electra_model_with_attention_check_cbr_different_features_for_retrieval" in
  (* a named tuple with three fields is never empty, so it is truthy *)
  let predictions := Some predictions in
  text ← lift (mapR (λ r, getitem (base (aug r)) "text") test_df);
  let outputs_dict :=
    mkOutputs note label_encoder config predictions text
      (map (λ r, augmented_cases (aug r)) test_df)
      (map (λ r, similar_cases (aug r)) test_df)
      (map (λ r, similar_cases_labels (aug r)) test_df) in
  let file_name := results_file_name config now in
  call (EDump outputs_dict "res2.joblib")
       (joblib_dump env outputs_dict "res2.joblib").

(** [df["label"]] on a split. *)
Definition label_column (df : list Row) : result (list string) :=
  mapR (λ row, getitem row "label") df.

(** [df[~df["label"].isin(bad_classes)]] *)
Definition drop_bad_classes (df : list Row) : result (list Row) :=
  labels ← label_column df;
  Ok (fst <$> filter (λ p, p.2 ∉ bad_classes) (zip df labels)).

(** The body of [for retriever_str in config.retrievers]. *)
Definition load_retriever
    (env : Env) (config : Config)
    (retrievers_to_use : list Retriever) (retriever_str : string)
  : M (list Retriever) :=
  if bool_decide (retriever_str = "simcse") then
    simcse_retriever ←
      call (ENewRetriever config) (SimCSE_Retriever env config);
    mret (retrievers_to_use ++ [simcse_retriever])
  else
    print "retreiver not found";;
    exit.

(** [df["label"] = label_encoder.transform(df["label"])] *)
Definition encode_labels
    (label_encoder : LabelEncoder.t) (df : list AugRow) : M (list EncRow) :=
  y ← lift (label_column (base <$> df));
  ids ← call (ETransform y) (LabelEncoder.transform label_encoder y);
  mret (zip_with mkEncRow df ids).

(** [dataset.map(process, batched=True)] on one split, taken as a single
    batch: the texts are tokenized, then the augmented cases. *)
Definition process
    (env : Env) (tokenizer : Tokenizer env) (df : list EncRow)
  : M (Encoding env * Encoding env * list nat) :=
  text ← lift (mapR (λ r, getitem (base (aug r)) "text") df);
  inputs ← call (ETokenize text) (tokenize env tokenizer text);
  inputs_cbr ←
    call (ETokenize ((λ r, augmented_cases (aug r)) <$> df))
         (tokenize env tokenizer ((λ r, augmented_cases (aug r)) <$> df));
  mret (inputs, inputs_cbr, label <$> df).

Definition models_dir (config : Config) : string :=
  "models/cbr_electra_logical_fallacy_classification_"
    +:+ replace (data_dir config) "/" "_".

(** [do_train_process], with [config] the value of [wandb.config]. *)
Definition do_train_process (env : Env) (config : Config) : M unit :=
  train_df ← call (EReadCsv (os_path_join (data_dir config) "train.csv"))
                  (read_csv env (os_path_join (data_dir config) "train.csv"));
  dev_df ← call (EReadCsv (os_path_join (data_dir config) "dev.csv"))
                (read_csv env (os_path_join (data_dir config) "dev.csv"));
  test_df ← call (EReadCsv (os_path_join (data_dir config) "test.csv"))
                 (read_csv env (os_path_join (data_dir config) "test.csv"));
  train_df ← lift (drop_bad_classes train_df);
  dev_df ← lift (drop_bad_classes dev_df);
  test_df ← lift (drop_bad_classes test_df);
  retrievers_to_use ←
    for_eachM (retrievers config) (load_retriever env config) [];
  train_df ← augment_with_similar_cases train_df retrievers_to_use config;
  dev_df ← augment_with_similar_cases dev_df retrievers_to_use config;
  test_df ← augment_with_similar_cases test_df retrievers_to_use config;
  y ← lift (label_column (base <$> train_df));
  label_encoder ← call (EFit y) (Ok (LabelEncoder.fit y));
  train_df ← encode_labels label_encoder train_df;
  dev_df ← encode_labels label_encoder dev_df;
  test_df ← encode_labels label_encoder test_df;
  tokenizer ←
    call (ETokenizerFromPretrained
            (if eval_only config then model_dir config
             else Some checkpoint_for_adapter))
         (tokenizer_from_pretrained env
            (if eval_only config then model_dir config
             else Some checkpoint_for_adapter));
  model ←
    (if eval_only config then
       call (EModelFromPretrained (model_dir config))
            (model_from_pretrained env (model_dir config) None)
     else
       call (EModelFromPretrained (Some checkpoint_for_adapter))
            (model_from_pretrained env (Some checkpoint_for_adapter)
               (Some (length (LabelEncoder.classes_ label_encoder),
                      classifier_dropout config))));
  tokenized_train ← process env tokenizer train_df;
  tokenized_eval ← process env tokenizer dev_df;
  tokenized_test ← process env tokenizer test_df;
  print "Model loaded!";;
  let training_args :=
    mkTrainingArguments (models_dir config) (learning_rate config)
      (batch_size config) (batch_size config) (num_epochs config)
      (weight_decay config) in
  model ←
    (if negb (eval_only config) then
       print "Start the training ...";;
       model ← call (ETrain training_args)
                    (trainer_train env model training_args
                       tokenized_train tokenized_eval);
       call (ESaveModel (models_dir config +:+ "_feature_" +:+ feature config))
            (trainer_save_model env model
               (models_dir config +:+ "_feature_" +:+ feature config));;
       mret model
     else mret model);
  predictions ← call EPredict (trainer_predict env model tokenized_test);
  save_results env config label_encoder predictions test_df.

(** ** Vocabulary of the specification *)

Definition recognized_features : list string :=
  ["text"; "explanations"; "goals"; "structure"; "counter"].

(** An augmented text is a sequence of segments separated by single
    spaces. *)
Definition segments_text (segments : list string) : string :=
  String.concat " " segments.

(** Template of the modes text, explanations and goals: for each
    retrieved case, the separator then the case. *)
Definition plain_segments (sep : string) (cases : list string) : list string :=
  c ← cases; [sep; c].

(** Template of the modes structure and counter: for each retrieved
    case, the separator, the feature value of the row itself, the
    separator again, then the case. *)
Definition own_feature_segments
    (sep own : string) (cases : list string) : list string :=
  c ← cases; [sep; own; sep; c].

(** What one retriever answers for one row: the query is the row's
    feature column. *)
Definition answer (config : Config) (row : Row) (r : Retriever)
  : result (list CaseLabel) :=
  case ← getitem row (feature config);
  retrieve_similar_cases r case (num_cases config) (cbr_threshold config).

(** The cases a row obtains from one retriever, none when the call
    fails. *)
Definition retrieved (config : Config) (row : Row) (r : Retriever)
  : list CaseLabel :=
  match answer config row r with
  | Ok cases => cases
  | Raise _ => []
  end.

(** The retriever fails on this row with an error, that is with an
    instance of [Exception]. *)
Definition fails_on (config : Config) (row : Row) (r : Retriever) : Prop :=
  ∃ e, answer config row r = Raise e ∧ is_Exception e = true.

Definition same_answer (config : Config) (row : Row) (r r' : Retriever)
  : Prop :=
  answer config row r = answer config row r'.

(** The cases and labels a row collects over a list of retrievers, in
    retriever order. *)
Definition retrieved_cases
    (config : Config) (row : Row) (rs : list Retriever) : list string :=
  r ← rs; similar_case <$> retrieved config row r.

Definition retrieved_labels
    (config : Config) (row : Row) (rs : list Retriever) : list string :=
  r ← rs; similar_case_label <$> retrieved config row r.

(** What the [try] block makes of one answer: the two lists grow, an
    error leaves them as they were, anything else propagates. *)
Definition absorb
    (acc : list string * list string) (ans : result (list CaseLabel))
  : result (list string * list string) :=
  match ans with
  | Ok cases =>
      Ok (acc.1 ++ map similar_case cases,
          acc.2 ++ map similar_case_label cases)
  | Raise e => if is_Exception e then Ok acc else Raise e
  end.

(** No answer of the retriever on this row escapes [except Exception]. *)
Definition catchable (config : Config) (row : Row) (r : Retriever) : Prop :=
  ∀ e, answer config row r = Raise e → is_Exception e = true.

(** The file names a trace hands to [joblib.dump]. *)
Definition dump_targets (tr : list event) : list string :=
  omap (λ ev, match ev with EDump _ filename => Some filename | _ => None end)
    tr.

(** The configuration with another [predictions_dir]. *)
Definition with_predictions_dir (dir : string) (c : Config) : Config :=
  mkConfig (eval_only c) (model_dir c) (sep_token c) (retrievers c)
    (feature c) (num_cases c) (cbr_threshold c) (data_dir c) dir
    (batch_size c) (learning_rate c) (num_epochs c) (classifier_dropout c)
    (weight_decay c).

(** The calls the driver makes before it starts augmenting: reading
    the splits, building retrievers, and the notice that precedes
    [exit()]. *)
Definition setup_event (ev : event) : bool :=
  match ev with
  | EReadCsv _ | ENewRetriever _ => true
  | EPrint s => bool_decide (s = "retreiver not found")
  | _ => false
  end.

(** The calls [augment_with_similar_cases] makes. *)
Definition augmentation_event (ev : event) : bool :=
  match ev with
  | ETqdm _ | ERetrieve _ _ _ | EPrint _ => true
  | _ => false
  end.

(** The calls to the label encoder. *)
Definition encoder_event (ev : event) : bool :=
  match ev with
  | EFit _ | ETransform _ => true
  | _ => false
  end.

(** [df'] holds the rows of [df] whose label is not a dropped class. *)
Definition kept (df df' : list Row) : Prop :=
  ∀ row, row ∈ df' ↔
         row ∈ df ∧ ∃ l, row !! "label" = Some l ∧ l ∉ bad_classes.

(** Where the tokenizer and the model of a run are loaded from. *)
Definition pretrained_path (config : Config) : option string :=
  if eval_only config then model_dir config else Some checkpoint_for_adapter.

(** What the flag [eval_only] allows of a call: training and saving the
    model only when it is off, loading only from [pretrained_path]. *)
Definition respects_eval_only (config : Config) (ev : event) : Prop :=
  match ev with
  | ETrain _ | ESaveModel _ => eval_only config = false
  | ETokenizerFromPretrained path | EModelFromPretrained path =>
      path = pretrained_path config
  | _ => True
  end.

(** The last call of a trace is a dump to "res2.joblib", and its only
    dump. *)
Definition ends_with_dump (tr : list event) : Prop :=
  ∃ before value,
    tr = before ++ [EDump value "res2.joblib"] ∧ dump_targets before = [].

(** ** Sample data

    The configuration [parameters_dict] builds from the default
    arguments, at a given feature mode, and rows of a small split. *)

Definition sample_config (mode : string) : Config :=
  mkConfig false None "[SEP]" ["simcse"] mode 1 (1 # 2)
    "../data/final_data" "cache/predictions/all" 8 (8448 # 100000000) 6
    (1 # 10) (1 # 20).

Definition sample_row : Row :=
  {[ "text" := "orig"; "structure" := "F"; "label" := "ad hominem" ]}.

(** A split of five rows, a retriever that always answers with one case
    and one that raises on the query of the row of index 2. *)
Definition sample_df : list Row :=
  (λ text, {[ "text" := text; "label" := "ad hominem" ]})
    <$> ["t0"; "t1"; "t2"; "t3"; "t4"].

Definition mock_retriever : Retriever :=
  mkRetriever (λ case _ _, Ok [mkCaseLabel ("near " +:+ case) "ad hominem"]).

Definition failing_retriever : Retriever :=
  mkRetriever
    (λ case _ _,
       if bool_decide (case = "t2") then Raise (RuntimeError "index error")
       else Ok [mkCaseLabel ("near " +:+ case) "ad hominem"]).

Definition sample_augmented : list AugRow :=
  match (augment_with_similar_cases sample_df [mock_retriever]
           (sample_config "text")).2 with
  | Ok out => out
  | Raise _ => []
  end.

(** A toy tensor library over integers, and a model on it. *)
Definition sample_torch : Torch :=
  {| Tensor := Z;
     Scalar := Z;
     first_position := λ x, Ok x;
     gelu := λ x, Ok (Z.max 0 x);
     BCEWithLogitsLoss := λ x y, Ok (x + y)%Z;
     CrossEntropyLoss := λ x y, Ok (x * y)%Z |}.

Definition sample_head : @ElectraClassificationHead.t sample_torch :=
  @ElectraClassificationHead.mk sample_torch
    (λ x, Ok (2 * x)%Z) (λ x, Ok x) (λ x, Ok (x + 1)%Z).

Definition sample_model : @ElectraForSequenceClassification.t sample_torch :=
  @ElectraForSequenceClassification.mk sample_torch
    (@ElectraForSequenceClassification.mkModelConfig 10 None true)
    (λ ids _ _ _,
       match ids with
       | Some x =>
           Ok (@ElectraForSequenceClassification.mkEncoderOutput sample_torch
                 x None None)
       | None => Raise (ValueError "You have to specify input_ids")
       end)
    (λ q k _, Ok (q + k)%Z)
    sample_head.

Definition sample_args : @ElectraForSequenceClassification.Args sample_torch :=
  @ElectraForSequenceClassification.mkArgs sample_torch
    (Some 3%Z) (Some 1%Z) (Some 4%Z) (Some 1%Z)
    (@ElectraForSequenceClassification.no_shared sample_torch)
    (Some 5%Z) None.

Definition sample_batch : gmap string Z :=
  {[ "input_ids" := 3%Z; "attention_mask" := 1%Z; "input_ids_cbr" := 4%Z;
     "attention_mask_cbr" := 1%Z; "labels" := 5%Z ]}.

(** A split with a row of a dropped class, and libraries that always
    succeed. *)
Definition sample_split : list Row :=
  [ {[ "text" := "t0"; "label" := "ad hominem" ]};
    {[ "text" := "t1"; "label" := "slothful induction" ]};
    {[ "text" := "t2"; "label" := "false causality" ]} ].

Definition sample_env : Env :=
  {| Tokenizer := unit;
     Model := unit;
     Encoding := list string;
     read_csv := λ _, Ok sample_split;
     SimCSE_Retriever := λ _, Ok mock_retriever;
     tokenizer_from_pretrained := λ _, Ok ();
     model_from_pretrained := λ _ _, Ok ();
     tokenize := λ _ texts, Ok texts;
     trainer_train := λ model _ _ _, Ok model;
     trainer_save_model := λ _ _, Ok ();
     trainer_predict := λ _ _, Ok (mkPredictionOutput [] [] []);
     joblib_dump := λ _ _, Ok ();
     today_isoformat := "2026-01-01T00:00:00" |}.

Definition sample_test_df : list EncRow :=
  [ mkEncRow (mkAugRow sample_row "orig [SEP] A" ["A"] ["ad hominem"]) 0 ].

Definition sample_config_bm25 : Config :=
  mkConfig false None "[SEP]" ["simcse"; "bm25"; "simcse"] "text" 1 (1 # 2)
    "../data/final_data" "cache/predictions/all" 8 (8448 # 100000000) 6
    (1 # 10) (1 # 20).

(** Rows that lack a column. *)
Definition row_without_text : Row := {[ "label" := "ad hominem" ]}.

Definition row_without_feature : Row :=
  {[ "text" := "orig"; "label" := "ad hominem" ]}.

(** A retriever that calls [exit()] on the query "t2". *)
Definition exiting_retriever : Retriever :=
  mkRetriever
    (λ case _ _,
       if bool_decide (case = "t2") then Raise SystemExit
       else Ok [mkCaseLabel ("near " +:+ case) "ad hominem"]).

(** The toy model with [use_return_dict] off and a problem type set. *)
Definition sample_tuple_model
  : @ElectraForSequenceClassification.t sample_torch :=
  @ElectraForSequenceClassification.mk sample_torch
    (@ElectraForSequenceClassification.mkModelConfig 10
       (Some "single_label_classification") false)
    (@ElectraForSequenceClassification.electra sample_torch sample_model)
    (@ElectraForSequenceClassification.attention sample_torch sample_model)
    sample_head.

Definition sample_eval_config : Config :=
  mkConfig true (Some "models/run1") "[SEP]" ["simcse"] "text" 1 (1 # 2)
    "../data/final_data" "cache/predictions/all" 8 (8448 # 100000000) 6
    (1 # 10) (1 # 20).


Definition sample_aug_rows : list AugRow :=
  [ mkAugRow {[ "text" := "t0"; "label" := "ad hominem" ]} "t0" [] [];
    mkAugRow {[ "text" := "t2"; "label" := "false causality" ]} "t2" [] [] ].

Definition sample_bundle : outputs_dict :=
  mkOutputs
    "electra_model_with_attention_check_cbr_different_features_for_retrieval"
    (LabelEncoder.fit ["ad hominem"]) (sample_config "text")
    (Some (mkPredictionOutput [] [] [])) ["orig"] ["orig [SEP] A"] [["A"]]
    [["ad hominem"]].

(** ** Strings and segments *)

Lemma string_app_assoc (a b c : string) : (a +:+ b) +:+ c = a +:+ b +:+ c.
Proof.
  induction a as [|x a IH]; [done |].
  change (String x ((a +:+ b) +:+ c) = String x (a +:+ b +:+ c)).
  by rewrite IH.
Qed.

Lemma string_prefix_app (a b : string) : String.prefix a (a +:+ b) = true.
Proof.
  induction a as [|x a IH].
  - by destruct b.
  - change (String.prefix (String x a) (String x (a +:+ b)) = true).
    simpl. destruct (ascii_dec x x); [apply IH | done].
Qed.

Lemma string_length_app (a b : string) :
  String.length (a +:+ b) = String.length a + String.length b.
Proof.
  induction a as [|x a IH]; [done |].
  change (S (String.length (a +:+ b)) = S (String.length a) + String.length b).
  by rewrite IH.
Qed.

Lemma string_app_empty_r (a : string) : a +:+ "" = a.
Proof.
  induction a as [|x a IH]; [done |].
  change (String x (a +:+ "") = String x a). by rewrite IH.
Qed.

Lemma segments_text_cons (x : string) (l : list string) :
  ∃ rest, segments_text (x :: l) = x +:+ rest.
Proof.
  destruct l as [|y l]; simpl.
  - exists "". by rewrite string_app_empty_r.
  - by eexists.
Qed.

Lemma segments_text_prefix (x : string) (l : list string) :
  String.prefix x (segments_text (x :: l)) = true.
Proof.
  destruct (segments_text_cons x l) as [rest ->]. apply string_prefix_app.
Qed.

(** ** The two loops of [create_augmented_case] *)

Lemma contains_true (xs : list string) (x : string) :
  contains xs x = true ↔ x ∈ xs.
Proof. unfold contains. apply bool_decide_eq_true. Qed.

Lemma contains_false (xs : list string) (x : string) :
  contains xs x = false ↔ x ∉ xs.
Proof. unfold contains. apply bool_decide_eq_false. Qed.

Lemma plain_loop (sep : string) (cases : list string) :
  ∀ text more,
    for_each cases
      (λ augmented_case similar_case,
         Ok (augmented_case +:+ (" " +:+ sep +:+ " ") +:+ similar_case))
      (segments_text (text :: more))
    = Ok (segments_text (text :: more ++ plain_segments sep cases)).
Proof.
  induction cases as [|c cases IH]; intros text more; simpl.
  - by rewrite app_nil_r.
  - replace (segments_text (text :: more) +:+ (" " +:+ sep +:+ " ") +:+ c)
      with (segments_text (text :: more ++ [sep; c])).
    + rewrite (IH text (more ++ [sep; c])). by rewrite <- app_assoc.
    + clear IH. revert text.
      induction more as [|m more IHm]; intros text.
      * simpl. by rewrite !string_app_assoc.
      * change (segments_text (text :: (m :: more) ++ [sep; c]))
          with (text +:+ " " +:+ segments_text (m :: more ++ [sep; c])).
        rewrite IHm.
        change (segments_text (text :: m :: more))
          with (text +:+ " " +:+ segments_text (m :: more)).
        by rewrite !string_app_assoc.
Qed.

Lemma for_each_ext {A S} (f g : S → A → result S) (xs : list A) :
  (∀ s x, f s x = g s x) → ∀ s, for_each xs f s = for_each xs g s.
Proof.
  intros Hfg. induction xs as [|x xs IH]; intros s; simpl; [done |].
  rewrite Hfg. destruct (g s x); simpl; [apply IH | done].
Qed.

Lemma own_feature_loop (row : Row) (key sep own : string)
    (cases : list string) :
  row !! key = Some own →
  ∀ text more,
    for_each cases
      (λ augmented_case similar_case,
         own ← getitem row key;
         Ok (augmented_case
               +:+ (" " +:+ sep +:+ " " +:+ own +:+ " "
                    +:+ sep +:+ " " +:+ similar_case)))
      (segments_text (text :: more))
    = Ok (segments_text (text :: more ++ own_feature_segments sep own cases)).
Proof.
  intros Hown text more.
  rewrite (for_each_ext _
             (λ augmented_case similar_case,
                Ok (augmented_case
                      +:+ (" " +:+ sep +:+ " " +:+ own +:+ " "
                           +:+ sep +:+ " " +:+ similar_case))));
    [| by intros; unfold getitem; rewrite Hown].
  revert text more.
  induction cases as [|c cases IH]; intros text more; simpl.
  - by rewrite app_nil_r.
  - replace (segments_text (text :: more)
               +:+ " " +:+ sep +:+ " " +:+ own +:+ " " +:+ sep +:+ " " +:+ c)
      with (segments_text (text :: more ++ [sep; own; sep; c])).
    + rewrite (IH text (more ++ [sep; own; sep; c])). by rewrite <- app_assoc.
    + clear IH. revert text.
      induction more as [|m more IHm]; intros text.
      * done.
      * change (segments_text (text :: (m :: more) ++ [sep; own; sep; c]))
          with (text +:+ " "
                  +:+ segments_text (m :: more ++ [sep; own; sep; c])).
        rewrite IHm.
        change (segments_text (text :: m :: more))
          with (text +:+ " " +:+ segments_text (m :: more)).
        by rewrite !string_app_assoc.
Qed.

Lemma getitem_Some {V} (d : gmap string V) (key : string) (v : V) :
  d !! key = Some v → getitem d key = Ok v.
Proof. intros Hd. unfold getitem. by rewrite Hd. Qed.

Lemma plain_feature_branch (config : Config) :
  feature config ∈ ["text"; "explanations"; "goals"] →
  contains ["text"; "explanations"; "goals"] (feature config) = true.
Proof. apply contains_true. Qed.

Lemma own_feature_branch (config : Config) :
  feature config ∈ ["structure"; "counter"] →
  contains ["text"; "explanations"; "goals"] (feature config) = false
  ∧ contains ["structure"; "counter"] (feature config) = true.
Proof.
  intros Hf. split; [| by apply contains_true].
  rewrite !elem_of_cons in Hf.
  destruct Hf as [Hf|[Hf|Hf]]; [| | by apply elem_of_nil in Hf];
    rewrite Hf; by vm_compute.
Qed.

Lemma recognized_features_split (f : string) :
  f ∈ recognized_features ↔
  f ∈ ["text"; "explanations"; "goals"] ∨ f ∈ ["structure"; "counter"].
Proof.
  unfold recognized_features. rewrite !elem_of_cons. tauto.
Qed.

Lemma segments_text_singleton (x : string) : segments_text [x] = x.
Proof. done. Qed.

Lemma create_augmented_case_plain
    (row : Row) (config : Config) (cases : list string) (original : string) :
  row !! "text" = Some original →
  feature config ∈ ["text"; "explanations"; "goals"] →
  create_augmented_case row config cases
  = Ok (segments_text (original :: plain_segments (sep_token config) cases)).
Proof.
  intros Htext Hf. unfold create_augmented_case.
  rewrite (plain_feature_branch _ Hf).
  rewrite (getitem_Some _ _ _ Htext). simpl.
  rewrite <- (segments_text_singleton original) at 1.
  by rewrite plain_loop.
Qed.

Lemma create_augmented_case_own_feature
    (row : Row) (config : Config) (cases : list string)
    (original own : string) :
  row !! "text" = Some original →
  feature config ∈ ["structure"; "counter"] →
  row !! feature config = Some own →
  create_augmented_case row config cases
  = Ok (segments_text
          (original :: own_feature_segments (sep_token config) own cases)).
Proof.
  intros Htext Hf Hown. unfold create_augmented_case.
  destruct (own_feature_branch _ Hf) as [-> ->].
  rewrite (getitem_Some _ _ _ Htext). simpl.
  rewrite <- (segments_text_singleton original) at 1.
  by rewrite (own_feature_loop _ _ _ own).
Qed.

Lemma create_augmented_case_nil
    (row : Row) (config : Config) (original : string) :
  row !! "text" = Some original →
  feature config ∈ recognized_features →
  create_augmented_case row config [] = Ok original.
Proof.
  intros Htext [Hf|Hf]%recognized_features_split.
  - by rewrite (create_augmented_case_plain _ _ _ original).
  - unfold create_augmented_case.
    destruct (own_feature_branch _ Hf) as [-> ->].
    by rewrite (getitem_Some _ _ _ Htext).
Qed.

Lemma create_augmented_case_unrecognized
    (row : Row) (config : Config) (cases : list string) :
  feature config ∉ recognized_features →
  create_augmented_case row config cases
  = Raise (UnboundLocalError "augmented_case").
Proof.
  intros Hf. unfold create_augmented_case.
  rewrite recognized_features_split in Hf.
  destruct (contains ["text"; "explanations"; "goals"] (feature config))
    eqn:Hp; [apply contains_true in Hp; tauto |].
  destruct (contains ["structure"; "counter"] (feature config))
    eqn:Ho; [apply contains_true in Ho; tauto | done].
Qed.

(** ** Claims about [create_augmented_case] *)

(** C1.  For a dataset row (it has the text column and, in the modes
    structure and counter, the column of that feature), every recognized
    feature mode and every list of retrieved cases, possibly empty,
    [create_augmented_case] returns a text whose first segment is the
    original text of the row: the original text is a prefix of it. *)
Theorem augmented_text_starts_with_original
    (row : Row) (config : Config) (similar_cases : list string)
    (original : string) :
  row !! "text" = Some original →
  feature config ∈ recognized_features →
  (feature config ∈ ["structure"; "counter"] → is_Some (row !! feature config)) →
  ∃ segments,
    create_augmented_case row config similar_cases
    = Ok (segments_text (original :: segments))
    ∧ String.prefix original (segments_text (original :: segments)) = true.
Proof.
  intros Htext [Hf|Hf]%recognized_features_split Hown.
  - eexists. split; [by apply create_augmented_case_plain |].
    apply segments_text_prefix.
  - destruct (Hown Hf) as [own Hrow].
    eexists. split; [by eapply create_augmented_case_own_feature |].
    apply segments_text_prefix.
Qed.

(** C2.  With no retrieved case, in every recognized feature mode,
    [create_augmented_case] returns exactly the original text of the
    row: no separator is appended. *)
Theorem no_similar_cases_returns_original
    (row : Row) (config : Config) (original : string) :
  row !! "text" = Some original →
  feature config ∈ recognized_features →
  create_augmented_case row config [] = Ok original.
Proof. apply create_augmented_case_nil. Qed.

(** C3.  In the modes text, explanations and goals the augmented text is
    the original text followed, for each retrieved case in order, by the
    separator token and then the raw text of that case; with separator
    [SEP] and the cases A and B it is the original text followed by
    " [SEP] A [SEP] B". *)
Theorem plain_template
    (row : Row) (config : Config) (cases : list string) (original : string) :
  row !! "text" = Some original →
  feature config ∈ ["text"; "explanations"; "goals"] →
  create_augmented_case row config cases
  = Ok (segments_text (original :: plain_segments (sep_token config) cases))
  ∧ (sep_token config = "[SEP]" →
     create_augmented_case row config ["A"; "B"]
     = Ok (original +:+ " [SEP] A [SEP] B")).
Proof.
  intros Htext Hf. split; [by apply create_augmented_case_plain |].
  intros Hsep. rewrite (create_augmented_case_plain _ _ _ original) by done.
  by rewrite Hsep.
Qed.

(** C4.  In the modes structure and counter the augmented text is the
    original text followed, for each retrieved case in order, by the
    separator token, the value of the row's own feature column, the
    separator token again and then the text of that case; with separator
    [SEP], feature value F and the cases A and B it is the original text
    followed by " [SEP] F [SEP] A [SEP] F [SEP] B". *)
Theorem own_feature_template
    (row : Row) (config : Config) (cases : list string)
    (original own : string) :
  row !! "text" = Some original →
  feature config ∈ ["structure"; "counter"] →
  row !! feature config = Some own →
  create_augmented_case row config cases
  = Ok (segments_text
          (original :: own_feature_segments (sep_token config) own cases))
  ∧ (sep_token config = "[SEP]" → own = "F" →
     create_augmented_case row config ["A"; "B"]
     = Ok (original +:+ " [SEP] F [SEP] A [SEP] F [SEP] B")).
Proof.
  intros Htext Hf Hown.
  split; [by apply create_augmented_case_own_feature |].
  intros Hsep HF.
  rewrite (create_augmented_case_own_feature _ _ _ original own) by done.
  by rewrite Hsep, HF.
Qed.

(** C10.  When the feature mode of the configuration is none of text,
    explanations, goals, structure and counter, [create_augmented_case]
    raises [UnboundLocalError] for its variable [augmented_case], which
    no branch has assigned, and returns no string. *)
Theorem unrecognized_feature_raises
    (row : Row) (config : Config) (similar_cases : list string) :
  feature config ∉ recognized_features →
  create_augmented_case row config similar_cases
  = Raise (UnboundLocalError "augmented_case")
  ∧ ∀ text, create_augmented_case row config similar_cases ≠ Ok text.
Proof.
  intros Hf. rewrite (create_augmented_case_unrecognized _ _ _ Hf).
  split; [done | congruence].
Qed.

Lemma augmented_text_starts_with_original_witness :
  ∃ segments,
    create_augmented_case sample_row (sample_config "structure") ["A"; "B"]
    = Ok (segments_text ("orig" :: segments))
    ∧ String.prefix "orig" (segments_text ("orig" :: segments)) = true.
Proof.
  apply augmented_text_starts_with_original.
  - reflexivity.
  - apply (bool_decide_unpack _). vm_compute. reflexivity.
  - intros _. exists "F". reflexivity.
Defined.

Lemma no_similar_cases_returns_original_witness :
  create_augmented_case sample_row (sample_config "counter") [] = Ok "orig".
Proof.
  apply no_similar_cases_returns_original.
  - reflexivity.
  - apply (bool_decide_unpack _). vm_compute. reflexivity.
Defined.

Lemma plain_template_witness :
  create_augmented_case sample_row (sample_config "text") ["A"; "B"]
  = Ok "orig [SEP] A [SEP] B".
Proof.
  refine (proj2 (plain_template sample_row (sample_config "text") []
                   "orig" _ _) _).
  - reflexivity.
  - apply (bool_decide_unpack _). vm_compute. reflexivity.
  - reflexivity.
Defined.

Lemma own_feature_template_witness :
  create_augmented_case sample_row (sample_config "structure") ["A"; "B"]
  = Ok "orig [SEP] F [SEP] A [SEP] F [SEP] B".
Proof.
  refine (proj2 (own_feature_template sample_row (sample_config "structure")
                   [] "orig" "F" _ _ _) _ _).
  - reflexivity.
  - apply (bool_decide_unpack _). vm_compute. reflexivity.
  - reflexivity.
  - reflexivity.
  - reflexivity.
Defined.

Lemma unrecognized_feature_raises_witness :
  create_augmented_case sample_row (sample_config "premise") ["A"]
  = Raise (UnboundLocalError "augmented_case").
Proof.
  refine (proj1 (unrecognized_feature_raises sample_row
                   (sample_config "premise") ["A"] _)).
  apply (bool_decide_unpack _). vm_compute. reflexivity.
Defined.

(** ** Results of traced computations *)

Lemma snd_bind {A B} (m : M A) (f : A → M B) :
  (m ≫= f).2 = m.2 ≫= (λ a, (f a).2).
Proof. destruct m as [t [a|e]]; done. Qed.

Lemma fst_bind_Ok {A B} (m : M A) (f : A → M B) (a : A) :
  m.2 = Ok a → (m ≫= f).1 = m.1 ++ (f a).1.
Proof. destruct m as [t r]. simpl. by intros ->. Qed.

Lemma fst_bind_Raise {A B} (m : M A) (f : A → M B) (e : exn) :
  m.2 = Raise e → (m ≫= f).1 = m.1.
Proof. destruct m as [t r]. simpl. by intros ->. Qed.

Lemma snd_for_eachM {A S} (body : S → A → M S) (xs : list A) :
  ∀ s, (for_eachM xs body s).2 = for_each xs (λ s x, (body s x).2) s.
Proof.
  induction xs as [|x xs IH]; intros s; simpl; [done |].
  rewrite snd_bind. destruct (body s x).2; simpl; [apply IH | done].
Qed.

Lemma snd_mapM {A B} (f : A → M B) (xs : list A) :
  (mapM f xs).2 = mapR (λ x, (f x).2) xs.
Proof.
  induction xs as [|x xs IH]; simpl; [done |].
  rewrite snd_bind. destruct (f x).2; simpl; [| done].
  rewrite snd_bind, IH. by destruct (mapR _ xs).
Qed.

Lemma mapR_Ok {A B} (f : A → result B) (xs : list A) (ys : list B) :
  mapR f xs = Ok ys ↔ Forall2 (λ x y, f x = Ok y) xs ys.
Proof.
  revert ys. induction xs as [|x xs IH]; intros ys; simpl.
  - split; [intros [= <-]; constructor | by inversion 1].
  - destruct (f x) as [y|e] eqn:Hx; simpl.
    + destruct (mapR f xs) as [ys'|e] eqn:Hxs; simpl.
      * split.
        -- intros [= <-]. constructor; [done | by apply IH].
        -- inversion 1 as [|? y' ? ys'' Hy Hys]; subst.
           apply IH in Hys. congruence.
      * split; [done |].
        inversion 1 as [|? y' ? ys'' Hy Hys]; subst.
        apply IH in Hys. congruence.
    + split; [done |]. inversion 1; congruence.
Qed.

(** Pointwise choice along a list. *)
Lemma list_choice {A B} (R : nat → A → B → Prop) (xs : list A) :
  (∀ j x, xs !! j = Some x → ∃ y, R j x y) →
  ∃ ys, length ys = length xs
        ∧ ∀ j x y, xs !! j = Some x → ys !! j = Some y → R j x y.
Proof.
  revert R. induction xs as [|x xs IH]; intros R HR.
  - exists []. split; [done |]. intros j x y Hx. by destruct j.
  - destruct (HR 0 x eq_refl) as [y Hy].
    destruct (IH (λ j, R (S j))) as (ys & Hlen & Hys).
    { intros j x' Hx'. by apply (HR (S j)). }
    exists (y :: ys). split; [simpl; by rewrite Hlen |].
    intros [|j] x' y' Hx' Hy'; simpl in *.
    + by injection Hx' as <-; injection Hy' as <-.
    + by apply Hys.
Qed.

(** ** One row of the augmentation loop *)

Lemma query_retriever_result
    (row : Row) (config : Config) (acc : list string * list string)
    (r : Retriever) :
  (query_retriever row config acc r).2 = absorb acc (answer config row r).
Proof.
  unfold query_retriever, answer, getitem.
  destruct (row !! feature config) as [case|]; [| reflexivity].
  unfold try_except, lift, call, print, mbind, M_bind, mret, M_ret,
    result_bind.
  simpl.
  destruct (retrieve_similar_cases r case (num_cases config)
              (cbr_threshold config)) as [cases|e]; simpl; [done |].
  by destruct (is_Exception e).
Qed.

Lemma augment_row_result
    (rs : list Retriever) (config : Config) (row : Row) :
  (augment_row rs config row).2
  = lists ← for_each rs (λ acc r, absorb acc (answer config row r)) ([], []);
    augmented_case ← create_augmented_case row config lists.1;
    Ok (mkAugRow row augmented_case lists.1 lists.2).
Proof.
  unfold augment_row. rewrite snd_bind, snd_for_eachM.
  rewrite (for_each_ext _ (λ acc r, absorb acc (answer config row r)));
    [| intros; apply query_retriever_result].
  destruct (for_each rs _ _) as [lists|e]; simpl; [| done].
  rewrite snd_bind. simpl.
  by destruct (create_augmented_case row config lists.1).
Qed.

(** Only the answers of the retrievers on this row matter. *)
Lemma augment_row_same_answers
    (rs rs' : list Retriever) (config : Config) (row : Row) :
  Forall2 (same_answer config row) rs rs' →
  (augment_row rs config row).2 = (augment_row rs' config row).2.
Proof.
  intros Hsame. rewrite !augment_row_result.
  assert (∀ acc,
            for_each rs (λ acc r, absorb acc (answer config row r)) acc
            = for_each rs' (λ acc r, absorb acc (answer config row r)) acc)
    as ->; [| done].
  induction Hsame as [|r r' rs rs' Hr _ IH]; intros acc; simpl; [done |].
  rewrite Hr. destruct (absorb acc _); simpl; [apply IH | done].
Qed.

Lemma collect_catchable
    (config : Config) (row : Row) (rs : list Retriever) :
  Forall (catchable config row) rs →
  ∀ acc,
    for_each rs (λ acc r, absorb acc (answer config row r)) acc
    = Ok (acc.1 ++ retrieved_cases config row rs,
          acc.2 ++ retrieved_labels config row rs).
Proof.
  unfold retrieved_cases, retrieved_labels.
  induction 1 as [|r rs Hr _ IH]; intros [cs ls]; simpl.
  - by rewrite !app_nil_r.
  - unfold retrieved, absorb at 1.
    destruct (answer config row r) as [cases|e] eqn:Hans; simpl.
    + rewrite IH. simpl. by rewrite <- !app_assoc.
    + rewrite (Hr e Hans). simpl. by rewrite IH.
Qed.

Lemma collect_Ok_catchable
    (config : Config) (row : Row) (rs : list Retriever) :
  ∀ acc lists,
    for_each rs (λ acc r, absorb acc (answer config row r)) acc = Ok lists →
    Forall (catchable config row) rs.
Proof.
  induction rs as [|r rs IH]; intros acc lists; simpl; [by constructor |].
  destruct (absorb acc (answer config row r)) as [acc'|e] eqn:Habs;
    simpl; [| done].
  intros Hrest. constructor; [| by eapply IH].
  intros e He. rewrite He in Habs. simpl in Habs.
  by destruct (is_Exception e).
Qed.

(** A run in which some retrievers fail where they answered before. *)
Lemma catchable_transfer
    (config : Config) (row : Row) (rs rs' : list Retriever) :
  Forall2 (λ r r', same_answer config row r r' ∨ fails_on config row r)
    rs rs' →
  Forall (catchable config row) rs' →
  Forall (catchable config row) rs.
Proof.
  induction 1 as [|r r' rs rs' Hr _ IH]; [done |].
  inversion 1 as [|? ? Hc Hcs]; subst. constructor; [| by apply IH].
  intros e He. destruct Hr as [Hsame|(e' & He' & Hexc)].
  - apply Hc. by rewrite <- Hsame.
  - congruence.
Qed.

Lemma retrieved_cases_fewer
    (config : Config) (row : Row) (rs rs' : list Retriever) :
  Forall2 (λ r r', same_answer config row r r' ∨ fails_on config row r)
    rs rs' →
  retrieved_cases config row rs' = [] →
  retrieved_cases config row rs = [].
Proof.
  unfold retrieved_cases.
  induction 1 as [|r r' rs rs' Hr _ IH]; [done |].
  rewrite !bind_cons. intros [Hr' Hrs']%app_eq_nil.
  rewrite (IH Hrs'), app_nil_r.
  destruct Hr as [Hsame|(e & He & _)].
  - unfold retrieved in *. by rewrite Hsame.
  - unfold retrieved. by rewrite He.
Qed.

(** Dropping retrieved cases never makes the template fail. *)
Lemma create_augmented_case_fewer
    (row : Row) (config : Config) (cases cases' : list string)
    (text' : string) :
  create_augmented_case row config cases' = Ok text' →
  (cases' = [] → cases = []) →
  ∃ text, create_augmented_case row config cases = Ok text.
Proof.
  intros Hok Hfewer.
  destruct (decide (feature config ∈ recognized_features)) as [Hf|Hf];
    [| by rewrite (create_augmented_case_unrecognized _ _ cases' Hf) in Hok].
  destruct (row !! "text") as [original|] eqn:Htext.
  - destruct cases as [|c cases].
    { exists original. by apply create_augmented_case_nil. }
    destruct cases' as [|c' cases']; [by specialize (Hfewer eq_refl) |].
    apply recognized_features_split in Hf as [Hf|Hf].
    + eexists. by apply create_augmented_case_plain.
    + destruct (row !! feature config) as [own|] eqn:Hown.
      * eexists. by eapply create_augmented_case_own_feature.
      * unfold create_augmented_case in Hok.
        destruct (own_feature_branch _ Hf) as [Hp Ho].
        rewrite Hp, Ho, (getitem_Some _ _ _ Htext) in Hok. simpl in Hok.
        unfold getitem in Hok. by rewrite Hown in Hok.
  - unfold create_augmented_case, getitem in Hok. rewrite Htext in Hok.
    by repeat case_match.
Qed.

(** A row with a text column is augmented whatever the retrievers do,
    as long as what they raise is an error: a missing feature column is
    itself caught as a [KeyError] and leaves the row without cases. *)
Lemma retrieved_cases_no_feature
    (config : Config) (row : Row) (rs : list Retriever) :
  row !! feature config = None → retrieved_cases config row rs = [].
Proof.
  intros Hnone. unfold retrieved_cases.
  induction rs as [|r rs IH]; [done |].
  rewrite bind_cons, IH, app_nil_r.
  unfold retrieved, answer, getitem. by rewrite Hnone.
Qed.

Lemma augment_row_completes
    (rs : list Retriever) (config : Config) (row : Row) (original : string) :
  row !! "text" = Some original →
  feature config ∈ recognized_features →
  Forall (catchable config row) rs →
  ∃ text,
    (augment_row rs config row).2
    = Ok (mkAugRow row text (retrieved_cases config row rs)
            (retrieved_labels config row rs)).
Proof.
  intros Htext Hf Hc.
  rewrite augment_row_result, (collect_catchable _ _ _ Hc). simpl.
  assert (∃ text,
            create_augmented_case row config (retrieved_cases config row rs)
            = Ok text) as [text ->]; [| by exists text].
  apply recognized_features_split in Hf as [Hf|Hf].
  - eexists. by apply create_augmented_case_plain.
  - destruct (row !! feature config) as [own|] eqn:Hown.
    + eexists. by eapply create_augmented_case_own_feature.
    + rewrite (retrieved_cases_no_feature _ _ _ Hown).
      exists original. apply create_augmented_case_nil; [done |].
      apply recognized_features_split. by right.
Qed.

(** ** Claim about [augment_with_similar_cases] *)

(** C5.  Take a run of [augment_with_similar_cases] that completes, and a
    second run over the same rows in which, on the row of index [k],
    some retrievers raise an error where they answered before, every
    other answer being the same.  The second run completes too: each
    error is caught and the retriever contributes no case to that row.
    Every row other than [k] gets the same augmented text, cases and
    labels as in the first run. *)
Theorem retrieval_failure_is_isolated
    (df : list Row) (rs rs' : list Retriever) (config : Config) (k : nat)
    (out' : list AugRow) :
  (∀ j row, df !! j = Some row → j ≠ k →
            Forall2 (same_answer config row) rs rs') →
  (∀ row, df !! k = Some row →
          Forall2 (λ r r', same_answer config row r r' ∨ fails_on config row r)
            rs rs') →
  (augment_with_similar_cases df rs' config).2 = Ok out' →
  ∃ out,
    (augment_with_similar_cases df rs config).2 = Ok out
    ∧ length out = length df
    ∧ (∀ j, j ≠ k → out !! j = out' !! j)
    ∧ (∀ row, df !! k = Some row →
         ∃ text,
           out !! k
           = Some (mkAugRow row text
                     (retrieved_cases config row rs)
                     (retrieved_labels config row rs))).
Proof.
  intros Hother Hfail Hrun'.
  unfold augment_with_similar_cases in *.
  rewrite snd_bind, snd_mapM in Hrun'. simpl in Hrun'.
  apply mapR_Ok in Hrun'.
  destruct (list_choice
              (λ j row y,
                 (augment_row rs config row).2 = Ok y
                 ∧ (j ≠ k → out' !! j = Some y)
                 ∧ (j = k →
                    ∃ text,
                      y = mkAugRow row text
                            (retrieved_cases config row rs)
                            (retrieved_labels config row rs))) df)
    as (out & Hlen & Hout).
  { intros j row Hrow.
    destruct (Forall2_lookup_l _ _ _ _ _ Hrun' Hrow) as (y' & Hy' & Hrow').
    destruct (decide (j = k)) as [->|Hjk].
    - specialize (Hfail row Hrow).
      rewrite augment_row_result in Hrow'.
      destruct (for_each rs' _ _) as [lists'|] eqn:Hlists'; [| done].
      simpl in Hrow'.
      destruct (create_augmented_case row config lists'.1)
        as [text'|] eqn:Htext'; [| done].
      pose proof (collect_Ok_catchable _ _ _ _ _ Hlists') as Hc'.
      pose proof (catchable_transfer _ _ _ _ Hfail Hc') as Hc.
      rewrite (collect_catchable _ _ _ Hc') in Hlists'.
      injection Hlists' as <-. simpl in Htext'.
      destruct (create_augmented_case_fewer row config
                  (retrieved_cases config row rs) _ _ Htext')
        as [text Htext]; [by apply retrieved_cases_fewer |].
      exists (mkAugRow row text (retrieved_cases config row rs)
                (retrieved_labels config row rs)).
      split; [| split; [done | by eexists]].
      rewrite augment_row_result, (collect_catchable _ _ _ Hc). simpl.
      by rewrite Htext.
    - exists y'. split; [| split; [done | done]].
      by rewrite (augment_row_same_answers _ _ _ _ (Hother j row Hrow Hjk)). }
  exists out. split; [| split; [done | split]].
  - rewrite snd_bind, snd_mapM. simpl. apply mapR_Ok.
    apply Forall2_same_length_lookup. split; [done |].
    intros j row y Hrow Hy. by destruct (Hout j row y Hrow Hy).
  - intros j Hjk.
    pose proof (Forall2_length _ _ _ Hrun') as Hlen'.
    destruct (df !! j) as [row|] eqn:Hrow.
    + destruct (lookup_lt_is_Some_2 out j) as [y Hy].
      { rewrite Hlen. by eapply lookup_lt_Some. }
      destruct (Hout j row y Hrow Hy) as (_ & Hsame & _).
      by rewrite Hy, Hsame.
    + apply lookup_ge_None in Hrow.
      rewrite (proj2 (lookup_ge_None out j)) by lia.
      by rewrite (proj2 (lookup_ge_None out' j)) by lia.
  - intros row Hrow.
    destruct (lookup_lt_is_Some_2 out k) as [y Hy].
    { rewrite Hlen. by eapply lookup_lt_Some. }
    destruct (Hout k row y Hrow Hy) as (_ & _ & Hk).
    destruct (Hk eq_refl) as [text ->]. by exists text.
Qed.

Lemma retrieval_failure_is_isolated_witness :
  ∃ out,
    (augment_with_similar_cases sample_df [failing_retriever]
       (sample_config "text")).2 = Ok out
    ∧ length out = length sample_df
    ∧ (∀ j, j ≠ 2 → out !! j = sample_augmented !! j)
    ∧ (∀ row, sample_df !! 2 = Some row →
         ∃ text,
           out !! 2
           = Some (mkAugRow row text
                     (retrieved_cases (sample_config "text") row
                        [failing_retriever])
                     (retrieved_labels (sample_config "text") row
                        [failing_retriever]))).
Proof.
  apply (retrieval_failure_is_isolated sample_df [failing_retriever]
           [mock_retriever] (sample_config "text") 2 sample_augmented).
  - intros j row Hrow Hj.
    destruct j as [|[|[|[|[|j]]]]]; try discriminate Hrow; try (by destruct Hj);
      injection Hrow as <-; (constructor; [reflexivity | constructor]).
  - intros row Hrow. injection Hrow as <-.
    constructor; [| constructor].
    right. exists (RuntimeError "index error"). split; reflexivity.
  - reflexivity.
Defined.

(** ** Claim about the two losses *)

Section Losses.
Context `{Torch}.
Import ElectraForSequenceClassification CustomTrainer.

Lemma forward_without_labels (model : t) (a : Args) (out : Output) :
  labels a = None → forward model a = Ok out → loss_of out = None.
Proof.
  unfold forward. intros ->. cbv zeta.
  generalize (match return_dict a with
              | Some b => b
              | None => use_return_dict (config model)
              end).
  intros rd.
  destruct (electra model (input_ids a) _ _ _) as [h|]; simpl; [| done].
  destruct (electra model (input_ids_cbr a) _ _ _) as [h'|]; simpl; [| done].
  destruct (attention model _ _ _) as [fused|]; simpl; [| done].
  destruct (ElectraClassificationHead.forward _ _) as [lg|]; simpl; [| done].
  destruct rd; simpl; by intros [= <-].
Qed.

(** C7.  When [forward] receives labels and the problem type of the
    configuration is unset, it computes one loss, binary cross-entropy
    with logits, on the logits of that same pass: the outcome is that of
    the pass without labels with this loss added.  [compute_loss] calls
    the model on the four input tensors only, takes the logits of the
    outputs and returns the categorical cross-entropy of these logits
    and the labels of the batch; the outputs carry no loss of the model,
    so the loss of the wrapper is the only one used. *)
Theorem training_loss_is_cross_entropy (model : t) :
  (∀ a lab,
     labels a = Some lab →
     problem_type (config model) = None →
     forward model a
     = out ← forward model (without_labels a);
       l ← BCEWithLogitsLoss (logits_of out) lab;
       Ok (with_loss (Some l) out))
  ∧ (∀ inputs ids mask ids_cbr mask_cbr lab o return_outputs,
       inputs !! "input_ids" = Some ids →
       inputs !! "attention_mask" = Some mask →
       inputs !! "input_ids_cbr" = Some ids_cbr →
       inputs !! "attention_mask_cbr" = Some mask_cbr →
       inputs !! "labels" = Some lab →
       forward model (wrapper_call ids mask ids_cbr mask_cbr) = Ok (Dict o) →
       compute_loss model inputs return_outputs
       = (l ← CrossEntropyLoss (logits o) lab;
          Ok (l, if return_outputs then Some (Dict o) else None))
       ∧ loss o = None).
Proof.
  split.
  - intros a lab Hlab Hproblem. unfold forward, without_labels. simpl.
    rewrite Hlab, Hproblem.
    generalize (match return_dict a with
                | Some b => b
                | None => use_return_dict (config model)
                end).
    intros rd.
    destruct (electra model (input_ids a) _ _ _) as [h|]; simpl; [| done].
    destruct (electra model (input_ids_cbr a) _ _ _) as [h'|]; simpl; [| done].
    destruct (attention model _ _ _) as [fused|]; simpl; [| done].
    destruct (ElectraClassificationHead.forward _ _) as [lg|]; simpl; [| done].
    destruct rd; simpl; by destruct (BCEWithLogitsLoss lg lab).
  - intros inputs ids mask ids_cbr mask_cbr lab o return_outputs
      Hids Hmask Hids_cbr Hmask_cbr Hlab Hforward.
    split.
    + unfold compute_loss.
      rewrite (getitem_Some _ _ _ Hids), (getitem_Some _ _ _ Hmask),
        (getitem_Some _ _ _ Hids_cbr), (getitem_Some _ _ _ Hmask_cbr).
      simpl. unfold wrapper_call in Hforward. rewrite Hforward. simpl.
      by rewrite Hlab.
    + by apply (forward_without_labels model
                  (wrapper_call ids mask ids_cbr mask_cbr) (Dict o)).
Qed.

End Losses.

Lemma training_loss_is_cross_entropy_witness :
  @ElectraForSequenceClassification.forward sample_torch sample_model
    sample_args
  = Ok (ElectraForSequenceClassification.Dict
          (@ElectraForSequenceClassification.mkSequenceClassifierOutput
             sample_torch (Some 20%Z) 15%Z None None))
  ∧ @CustomTrainer.compute_loss sample_torch sample_model sample_batch false
    = Ok (75%Z, None).
Proof.
  split.
  - rewrite (proj1 (@training_loss_is_cross_entropy sample_torch
                      sample_model) sample_args 5%Z eq_refl eq_refl).
    reflexivity.
  - destruct (proj2 (@training_loss_is_cross_entropy sample_torch
                       sample_model)
                sample_batch 3%Z 1%Z 4%Z 1%Z 5%Z
                (@ElectraForSequenceClassification.mkSequenceClassifierOutput
                   sample_torch None 15%Z None None)
                false eq_refl eq_refl eq_refl eq_refl eq_refl eq_refl)
      as [Hloss _].
    rewrite Hloss. reflexivity.
Defined.

(** ** Claim about [save_results] *)

Lemma mapR_total {A B} (f : A → result B) (xs : list A) :
  Forall (λ x, ∃ y, f x = Ok y) xs → ∃ ys, mapR f xs = Ok ys.
Proof.
  induction 1 as [|x xs [y Hy] _ [ys Hys]]; simpl; [by eexists |].
  rewrite Hy. simpl. rewrite Hys. by eexists.
Qed.

Lemma os_path_join_length (a b : string) :
  String.length b ≤ String.length (os_path_join a b).
Proof.
  unfold os_path_join. repeat case_match; rewrite ?string_length_app; lia.
Qed.

Lemma results_file_name_differs (config : Config) (now : string) :
  results_file_name config now ≠ "res2.joblib".
Proof.
  intros Heq. apply (f_equal String.length) in Heq.
  pose proof (os_path_join_length (predictions_dir config)
                ("outputs_dict__" +:+ now +:+ ".joblib")) as Hlen.
  unfold results_file_name in Heq. rewrite Heq in Hlen.
  rewrite !string_length_app in Hlen. simpl in Hlen. lia.
Qed.

(** C8.  Whatever [predictions_dir] the configuration holds,
    [save_results] on a test split with a text column makes one call to
    [joblib.dump], with the bundle of the run and the file name
    "res2.joblib"; the name it computes from [predictions_dir] differs
    from it and is not a write target. *)
Theorem results_written_to_fixed_path
    (env : Env) (config : Config) (label_encoder : LabelEncoder.t)
    (predictions : PredictionOutput) (test_df : list EncRow) :
  Forall (λ r, is_Some (base (aug r) !! "text")) test_df →
  ∀ dir,
    let config' := with_predictions_dir dir config in
    let run := save_results env config' label_encoder predictions test_df in
    (∃ value,
       run = ([EDump value "res2.joblib"],
              joblib_dump env value "res2.joblib")
       ∧ out_meta value = config'
       ∧ out_label_encoder value = label_encoder
       ∧ out_predictions value = Some predictions)
    ∧ dump_targets run.1 = ["res2.joblib"]
    ∧ results_file_name config' (today_isoformat env)
        ∉ dump_targets run.1.
Proof.
  intros Htext dir config' run.
  destruct (mapR_total (λ r, getitem (base (aug r)) "text") test_df)
    as [text Hcol].
  { eapply Forall_impl; [exact Htext |].
    intros r [t Ht]. exists t. by apply getitem_Some. }
  assert (∃ value,
            run = ([EDump value "res2.joblib"],
                   joblib_dump env value "res2.joblib")
            ∧ out_meta value = config'
            ∧ out_label_encoder value = label_encoder
            ∧ out_predictions value = Some predictions) as Hrun.
  { subst run. unfold save_results. rewrite Hcol. by eexists. }
  split; [done |].
  destruct Hrun as (value & -> & _). simpl. split; [done |].
  intros Hin%list_elem_of_singleton.
  by apply results_file_name_differs in Hin.
Qed.

Lemma results_written_to_fixed_path_witness :
  dump_targets
    (save_results sample_env
       (with_predictions_dir "elsewhere" (sample_config "text"))
       (LabelEncoder.fit ["ad hominem"]) (mkPredictionOutput [] [] [])
       sample_test_df).1
  = ["res2.joblib"].
Proof.
  refine (proj1 (proj2 (results_written_to_fixed_path sample_env
                          (sample_config "text")
                          (LabelEncoder.fit ["ad hominem"])
                          (mkPredictionOutput [] [] []) sample_test_df
                          _ "elsewhere"))).
  repeat constructor. exists "orig". reflexivity.
Defined.

(** ** Traces of traced computations *)

Lemma call_bind_Ok {A B} (ev : event) (a : A) (f : A → M B) :
  call ev (Ok a) ≫= f = (ev :: (f a).1, (f a).2).
Proof. done. Qed.

Lemma lift_bind_Ok {A B} (a : A) (f : A → M B) : lift (Ok a) ≫= f = f a.
Proof. unfold lift, mbind, M_bind. simpl. by destruct (f a). Qed.

Lemma bind_Raise {A B} (t : list event) (e : exn) (f : A → M B) :
  (t, Raise e) ≫= f = (t, Raise e).
Proof. done. Qed.

Lemma bind_Ok {A B} (t : list event) (a : A) (f : A → M B) :
  (t, Ok a) ≫= f = (t ++ (f a).1, (f a).2).
Proof. done. Qed.

Lemma bind_aborts {A B} (P : event → Prop) (m : M A) (f : A → M B) :
  Forall P m.1 →
  (∀ a, m.2 = Ok a → Forall P (f a).1 ∧ ∃ e, (f a).2 = Raise e) →
  Forall P (m ≫= f).1 ∧ ∃ e, (m ≫= f).2 = Raise e.
Proof.
  destruct m as [t [a|e]]; simpl; intros Ht Hf.
  - destruct (Hf a eq_refl) as [Hfa He].
    split; [by apply Forall_app | done].
  - split; [done | by eexists].
Qed.

Lemma bind_aborts_l {A B} (P : event → Prop) (m : M A) (f : A → M B) :
  Forall P m.1 → (∃ e, m.2 = Raise e) →
  Forall P (m ≫= f).1 ∧ ∃ e, (m ≫= f).2 = Raise e.
Proof.
  destruct m as [t r]; simpl. intros Ht [e ->]. split; [done | by eexists].
Qed.

(** ** The loop over [config.retrievers] *)

Lemma for_eachM_cons {A S} (body : S → A → M S) (x : A) (xs : list A)
    (s : S) :
  for_eachM (x :: xs) body s = body s x ≫= for_eachM xs body.
Proof. done. Qed.

Lemma load_retriever_cases (env : Env) (config : Config)
    (acc : list Retriever) (name : string) :
  load_retriever env config acc name
  = if bool_decide (name = "simcse") then
      match SimCSE_Retriever env config with
      | Ok r => ([ENewRetriever config], Ok (acc ++ [r]))
      | Raise e => ([ENewRetriever config], Raise e)
      end
    else ([EPrint "retreiver not found"], Raise SystemExit).
Proof.
  unfold load_retriever. case_bool_decide; [| done].
  by destruct (SimCSE_Retriever env config).
Qed.

Lemma load_retrievers_setup (env : Env) (config : Config)
    (names : list string) :
  ∀ acc,
    Forall (λ ev, setup_event ev = true)
      (for_eachM names (load_retriever env config) acc).1.
Proof.
  induction names as [|name names IH]; intros acc; [by constructor |].
  rewrite for_eachM_cons, load_retriever_cases. case_bool_decide.
  - destruct (SimCSE_Retriever env config) as [r|e].
    + rewrite bind_Ok. constructor; [done | apply IH].
    + rewrite bind_Raise. by repeat constructor.
  - rewrite bind_Raise. by repeat constructor.
Qed.

Lemma load_retrievers_unknown (env : Env) (config : Config)
    (names : list string) :
  (∃ name, name ∈ names ∧ name ≠ "simcse") →
  ∀ acc, ∃ e, (for_eachM names (load_retriever env config) acc).2 = Raise e.
Proof.
  intros (name & Hin & Hne).
  induction names as [|name' names IH]; intros acc;
    [by apply elem_of_nil in Hin |].
  rewrite for_eachM_cons, load_retriever_cases. case_bool_decide as Hname.
  - destruct (SimCSE_Retriever env config) as [r|e].
    + rewrite bind_Ok. simpl. apply IH.
      apply elem_of_cons in Hin as [->|Hin]; [done | done].
    + rewrite bind_Raise. by eexists.
  - rewrite bind_Raise. by eexists.
Qed.

Lemma load_retrievers_exit (env : Env) (config : Config)
    (before after : list string) (name : string) (r : Retriever) :
  Forall (λ n, n = "simcse") before →
  name ≠ "simcse" →
  SimCSE_Retriever env config = Ok r →
  ∀ acc,
    for_eachM (before ++ name :: after) (load_retriever env config) acc
    = (replicate (length before) (ENewRetriever config)
         ++ [EPrint "retreiver not found"],
       Raise SystemExit).
Proof.
  intros Hbefore Hname Hnew.
  induction Hbefore as [|n before -> _ IH]; intros acc.
  - simpl app. rewrite for_eachM_cons, load_retriever_cases.
    by rewrite bool_decide_eq_false_2.
  - change (("simcse" :: before) ++ name :: after)
      with ("simcse" :: (before ++ name :: after)).
    rewrite for_eachM_cons, load_retriever_cases.
    rewrite bool_decide_eq_true_2 by done.
    rewrite Hnew, bind_Ok, IH. done.
Qed.

Lemma drop_bad_classes_total (df : list Row) :
  Forall (λ row, is_Some (row !! "label")) df →
  ∃ df', drop_bad_classes df = Ok df'.
Proof.
  intros Hlabel. unfold drop_bad_classes, label_column.
  destruct (mapR_total (λ row, getitem row "label") df) as [labels ->].
  { eapply Forall_impl; [exact Hlabel |].
    intros row [l Hl]. exists l. by apply getitem_Some. }
  by eexists.
Qed.

(** ** Claim about an unknown retriever name *)

(** C9.  When the retriever list of the configuration holds a name
    other than "simcse", [do_train_process] does not complete, and all
    it has done is read splits, build retrievers and print the notice:
    no augmentation, label encoding, tokenization, training, prediction
    or dump.  When the three splits load with their label column and
    the retrievers named before the unknown one are built, the run ends
    at that name with [exit()], whatever follows it in the list. *)
Theorem unknown_retriever_terminates (env : Env) (config : Config) :
  (∃ name, name ∈ retrievers config ∧ name ≠ "simcse") →
  let run := do_train_process env config in
  Forall (λ ev, setup_event ev = true) run.1
  ∧ (∃ e, run.2 = Raise e)
  ∧ (∀ train dev test before name after,
       read_csv env (os_path_join (data_dir config) "train.csv") = Ok train →
       read_csv env (os_path_join (data_dir config) "dev.csv") = Ok dev →
       read_csv env (os_path_join (data_dir config) "test.csv") = Ok test →
       Forall (λ row, is_Some (row !! "label")) (train ++ dev ++ test) →
       retrievers config = before ++ name :: after →
       Forall (λ n, n = "simcse") before →
       name ≠ "simcse" →
       is_Ok (SimCSE_Retriever env config) = true →
       run
       = ([EReadCsv (os_path_join (data_dir config) "train.csv");
           EReadCsv (os_path_join (data_dir config) "dev.csv");
           EReadCsv (os_path_join (data_dir config) "test.csv")]
            ++ replicate (length before) (ENewRetriever config)
            ++ [EPrint "retreiver not found"],
          Raise SystemExit)).
Proof.
  intros Hunknown run.
  assert (Forall (λ ev, setup_event ev = true) run.1
          ∧ ∃ e, run.2 = Raise e) as [Htrace Hraise].
  { subst run. unfold do_train_process.
    do 3 (apply bind_aborts; [by repeat constructor | intros ? _]).
    do 3 (apply bind_aborts; [by constructor | intros ? _]).
    apply bind_aborts_l;
      [apply load_retrievers_setup | by apply load_retrievers_unknown]. }
  split; [done | split; [done |]].
  intros train dev test before name after Htrain Hdev Htest Hlabel
    Hnames Hbefore Hname Hnew.
  apply Forall_app in Hlabel as [Hl1 Hlabel].
  apply Forall_app in Hlabel as [Hl2 Hl3].
  destruct (drop_bad_classes_total _ Hl1) as [train' Htrain'].
  destruct (drop_bad_classes_total _ Hl2) as [dev' Hdev'].
  destruct (drop_bad_classes_total _ Hl3) as [test' Htest'].
  destruct (SimCSE_Retriever env config) as [r|] eqn:Hr; [| done].
  subst run. unfold do_train_process.
  rewrite Htrain, Hdev, Htest, !call_bind_Ok.
  rewrite Htrain', Hdev', Htest', !lift_bind_Ok.
  rewrite Hnames, (load_retrievers_exit env config before after name r)
    by done.
  by rewrite bind_Raise.
Qed.

Lemma unknown_retriever_terminates_witness :
  do_train_process sample_env sample_config_bm25
  = ([EReadCsv "../data/final_data/train.csv";
      EReadCsv "../data/final_data/dev.csv";
      EReadCsv "../data/final_data/test.csv";
      ENewRetriever sample_config_bm25;
      EPrint "retreiver not found"],
     Raise SystemExit).
Proof.
  refine (proj2 (proj2 (unknown_retriever_terminates sample_env
                          sample_config_bm25 _))
            sample_split sample_split sample_split
            ["simcse"] "bm25" ["simcse"] _ _ _ _ _ _ _ _).
  - exists "bm25". split; [| discriminate].
    apply (bool_decide_unpack _). vm_compute. reflexivity.
  - reflexivity.
  - reflexivity.
  - reflexivity.
  - repeat constructor; eexists; reflexivity.
  - reflexivity.
  - repeat constructor.
  - discriminate.
  - reflexivity.
Defined.

(** ** Filtering the splits *)

Lemma mapR_lookup {A B} (f : A → result B) (xs : list A) (ys : list B) :
  mapR f xs = Ok ys → ∀ x, x ∈ xs → ∃ y, f x = Ok y ∧ y ∈ ys.
Proof.
  intros Hmap%mapR_Ok x Hx.
  apply list_elem_of_lookup in Hx as [i Hi].
  destruct (Forall2_lookup_l _ _ _ _ _ Hmap Hi) as (y & Hy & Hfx).
  exists y. split; [done |]. apply list_elem_of_lookup. by exists i.
Qed.

Lemma getitem_Ok {V} (d : gmap string V) (key : string) (v : V) :
  getitem d key = Ok v ↔ d !! key = Some v.
Proof.
  unfold getitem. destruct (d !! key); split; intros; congruence.
Qed.

Lemma filter_zip_labels (df : list Row) (labels : list string) :
  Forall2 (λ row l, getitem row "label" = Ok l) df labels →
  ∀ row,
    row ∈ (filter (λ p, p.2 ∉ bad_classes) (zip df labels)).*1 ↔
    row ∈ df ∧ ∃ l, row !! "label" = Some l ∧ l ∉ bad_classes.
Proof.
  induction 1 as [|r l df labels Hr _ IH]; intros row.
  - split.
    + by intros ?%elem_of_nil.
    + by intros [?%elem_of_nil _].
  - change (zip (r :: df) (l :: labels)) with ((r, l) :: zip df labels).
    rewrite filter_cons. simpl.
    apply getitem_Ok in Hr.
    destruct (decide (l ∉ bad_classes)) as [Hl|Hl]; simpl;
      rewrite ?elem_of_cons, IH; clear IH.
    + split.
      * intros [->|[Hin Hlab]]; [split; [by left | by exists l] |].
        split; [by right | done].
      * intros [[->|Hin] Hlab]; [by left | by right].
    + split.
      * intros [Hin Hlab]. split; [by right | done].
      * intros [[->|Hin] (l' & Hl' & Hbad)];
          [| by split; [| exists l']].
        rewrite Hr in Hl'. by injection Hl' as <-.
Qed.

Lemma drop_bad_classes_kept (df df' : list Row) :
  drop_bad_classes df = Ok df' → kept df df'.
Proof.
  unfold drop_bad_classes, label_column.
  destruct (mapR _ df) as [labels|] eqn:Hlabels; simpl; [| done].
  intros [= <-]. apply mapR_Ok in Hlabels.
  intros row. by apply filter_zip_labels.
Qed.

Lemma kept_labels (df df' : list Row) (y : list string) :
  kept df df' → label_column df' = Ok y → Forall (λ l, l ∉ bad_classes) y.
Proof.
  intros Hkept Hy%mapR_Ok. apply Forall_forall. intros l Hl.
  apply list_elem_of_lookup in Hl as [i Hi].
  destruct (Forall2_lookup_r _ _ _ _ _ Hy Hi) as (row & Hrow & Hget).
  apply getitem_Ok in Hget.
  assert (row ∈ df') as Hin by (apply list_elem_of_lookup; by exists i).
  apply Hkept in Hin as (_ & l' & Hl' & Hbad). congruence.
Qed.

(** ** The label encoder *)

Lemma elem_of_insert_unique (x z : string) (l : list string) :
  z ∈ LabelEncoder.insert_unique x l ↔ z = x ∨ z ∈ l.
Proof.
  induction l as [|y l IH]; simpl.
  - rewrite list_elem_of_singleton, elem_of_nil. tauto.
  - destruct (String.compare x y) eqn:Hcmp.
    + apply String.compare_eq_iff in Hcmp as ->.
      rewrite elem_of_cons. tauto.
    + rewrite !elem_of_cons. tauto.
    + rewrite !elem_of_cons, IH. tauto.
Qed.

Lemma elem_of_unique (z : string) (y : list string) :
  z ∈ LabelEncoder.unique y ↔ z ∈ y.
Proof.
  unfold LabelEncoder.unique. induction y as [|x y IH]; simpl; [done |].
  by rewrite elem_of_insert_unique, elem_of_cons, IH.
Qed.

Lemma index_elem_of (classes : list string) (x : string) :
  x ∈ classes →
  ∃ i, LabelEncoder.index classes x = Some i ∧ classes !! i = Some x.
Proof.
  induction classes as [|c classes IH]; [by intros ?%elem_of_nil |].
  intros Hin. simpl. case_bool_decide as Hc.
  - exists 0. by rewrite Hc.
  - apply elem_of_cons in Hin as [->|Hin]; [done |].
    destruct (IH Hin) as (i & -> & Hi). by exists (S i).
Qed.

Lemma label_round_trip (y ys : list string) :
  ys ⊆ y →
  ∃ ids,
    LabelEncoder.transform (LabelEncoder.fit y) ys = Ok ids
    ∧ LabelEncoder.inverse_transform (LabelEncoder.fit y) ids = Ok ys.
Proof.
  unfold LabelEncoder.transform, LabelEncoder.inverse_transform. simpl.
  induction ys as [|x ys IH]; intros Hsub; [by exists [] |].
  apply list_subseteq_cons_iff in Hsub as [Hx Hsub].
  destruct (IH Hsub) as (ids & Hids & Hback).
  destruct (index_elem_of (LabelEncoder.unique y) x) as (i & Hi & Hxi);
    [by apply elem_of_unique |].
  exists (i :: ids). simpl. by rewrite Hi, Hxi, Hids, Hback.
Qed.

(** ** What a run of the driver calls *)

Lemma elem_of_trace_bind {A B} (ev : event) (m : M A) (f : A → M B) :
  ev ∈ (m ≫= f).1 → ev ∈ m.1 ∨ ∃ a, m.2 = Ok a ∧ ev ∈ (f a).1.
Proof.
  destruct m as [t [a|e]]; simpl; [| by left].
  intros [Hin|Hin]%elem_of_app; [by left | right; by exists a].
Qed.

Lemma Forall_trace_bind {A B} (P : event → Prop) (m : M A) (f : A → M B) :
  Forall P m.1 → (∀ a, m.2 = Ok a → Forall P (f a).1) →
  Forall P (m ≫= f).1.
Proof.
  destruct m as [t [a|e]]; simpl; intros Ht Hf; [| done].
  apply Forall_app. split; [done | by apply Hf].
Qed.

Lemma Forall_for_eachM {A S} (P : event → Prop) (body : S → A → M S)
    (xs : list A) :
  (∀ s x, Forall P (body s x).1) →
  ∀ s, Forall P (for_eachM xs body s).1.
Proof.
  intros Hbody. induction xs as [|x xs IH]; intros s; [by constructor |].
  rewrite for_eachM_cons. apply Forall_trace_bind; [apply Hbody |].
  intros s' _. apply IH.
Qed.

Lemma Forall_mapM {A B} (P : event → Prop) (f : A → M B) (xs : list A) :
  (∀ x, Forall P (f x).1) → Forall P (mapM f xs).1.
Proof.
  intros Hf. induction xs as [|x xs IH]; [by constructor |].
  simpl. apply Forall_trace_bind; [apply Hf |]. intros y _.
  apply Forall_trace_bind; [apply IH |]. intros ys _. by constructor.
Qed.

Lemma query_retriever_trace
    (row : Row) (config : Config) (acc : list string * list string)
    (r : Retriever) :
  Forall (λ ev, augmentation_event ev = true)
    (query_retriever row config acc r).1.
Proof.
  unfold query_retriever, getitem.
  destruct (row !! feature config) as [case|]; [| by repeat constructor].
  unfold try_except, lift, call, print, mbind, M_bind, mret, M_ret,
    result_bind.
  simpl.
  destruct (retrieve_similar_cases r case (num_cases config)
              (cbr_threshold config)) as [cases|e]; simpl;
    [by repeat constructor |].
  destruct (is_Exception e); by repeat constructor.
Qed.

Lemma augment_trace (df : list Row) (rs : list Retriever) (config : Config) :
  Forall (λ ev, augmentation_event ev = true)
    (augment_with_similar_cases df rs config).1.
Proof.
  unfold augment_with_similar_cases.
  apply Forall_trace_bind; [by repeat constructor |]. intros _ _.
  apply Forall_mapM. intros row. unfold augment_row.
  apply Forall_trace_bind.
  - apply Forall_for_eachM. intros. apply query_retriever_trace.
  - intros lists _. apply Forall_trace_bind; [by constructor |].
    intros text _. by constructor.
Qed.

Lemma augment_base (df : list Row) (rs : list Retriever) (config : Config)
    (out : list AugRow) :
  (augment_with_similar_cases df rs config).2 = Ok out → base <$> out = df.
Proof.
  unfold augment_with_similar_cases.
  rewrite snd_bind, snd_mapM. simpl. intros Hout%mapR_Ok.
  induction Hout as [|row y df out Hy _ IH]; [done |].
  rewrite fmap_cons, IH. f_equal.
  rewrite augment_row_result in Hy.
  destruct (for_each rs _ _) as [lists|]; simpl in Hy; [| done].
  destruct (create_augmented_case row config lists.1); simpl in Hy; [| done].
  by injection Hy as <-.
Qed.

(** Refutes that an encoder call occurs in a part of the run that makes
    none. *)
Ltac refute_trace Hev :=
  first
    [ by apply elem_of_nil in Hev
    | by (apply list_elem_of_singleton in Hev; subst)
    | apply elem_of_trace_bind in Hev as [Hev | (? & _ & Hev)];
      [refute_trace Hev | refute_trace Hev]
    | progress (unfold process, save_results, print in Hev; cbv zeta in Hev);
      refute_trace Hev
    | match type of Hev with
      | context [if ?b then _ else _] => destruct b; refute_trace Hev
      end ].

Lemma encode_labels_events
    (le : LabelEncoder.t) (df : list AugRow) (ev : event) :
  ev ∈ (encode_labels le df).1 →
  ∃ y, label_column (base <$> df) = Ok y ∧ ev = ETransform y.
Proof.
  unfold encode_labels. intros Hev.
  apply elem_of_trace_bind in Hev as [Hev | (y & Hy & Hev)];
    [by apply elem_of_nil in Hev |].
  exists y. split; [done |].
  apply elem_of_trace_bind in Hev as [Hev | (ids & _ & Hev)].
  - by apply list_elem_of_singleton in Hev.
  - by apply elem_of_nil in Hev.
Qed.

Lemma augment_not_encoder
    (df : list Row) (rs : list Retriever) (config : Config) (ev : event) :
  ev ∈ (augment_with_similar_cases df rs config).1 →
  encoder_event ev = true → False.
Proof.
  intros Hev Henc. pose proof (augment_trace df rs config) as Ha.
  rewrite Forall_forall in Ha. specialize (Ha _ Hev). by destruct ev.
Qed.

Lemma encoder_events_of_run (env : Env) (config : Config) (ev : event) :
  ev ∈ (do_train_process env config).1 →
  encoder_event ev = true →
  ∃ train dev test train' dev' test' y,
    read_csv env (os_path_join (data_dir config) "train.csv") = Ok train
    ∧ read_csv env (os_path_join (data_dir config) "dev.csv") = Ok dev
    ∧ read_csv env (os_path_join (data_dir config) "test.csv") = Ok test
    ∧ drop_bad_classes train = Ok train'
    ∧ drop_bad_classes dev = Ok dev'
    ∧ drop_bad_classes test = Ok test'
    ∧ label_column train' = Ok y
    ∧ (ev = EFit y
       ∨ ∃ df' y', df' ∈ [train'; dev'; test']
                   ∧ label_column df' = Ok y' ∧ ev = ETransform y').
Proof.
  intros Hev Henc. unfold do_train_process in Hev.
  apply elem_of_trace_bind in Hev as [Hev | (train & Htrain & Hev)];
    [by (apply list_elem_of_singleton in Hev; subst) |].
  apply elem_of_trace_bind in Hev as [Hev | (dev & Hdev & Hev)];
    [by (apply list_elem_of_singleton in Hev; subst) |].
  apply elem_of_trace_bind in Hev as [Hev | (test & Htest & Hev)];
    [by (apply list_elem_of_singleton in Hev; subst) |].
  apply elem_of_trace_bind in Hev as [Hev | (train' & Htrain' & Hev)];
    [by apply elem_of_nil in Hev |].
  apply elem_of_trace_bind in Hev as [Hev | (dev' & Hdev' & Hev)];
    [by apply elem_of_nil in Hev |].
  apply elem_of_trace_bind in Hev as [Hev | (test' & Htest' & Hev)];
    [by apply elem_of_nil in Hev |].
  apply elem_of_trace_bind in Hev as [Hev | (rs & _ & Hev)].
  { pose proof (load_retrievers_setup env config (retrievers config) [])
      as Hs.
    rewrite Forall_forall in Hs. specialize (Hs _ Hev). by destruct ev. }
  apply elem_of_trace_bind in Hev as [Hev | (train_df & Haug1 & Hev)];
    [by destruct (augment_not_encoder _ _ _ _ Hev) |].
  apply elem_of_trace_bind in Hev as [Hev | (dev_df & Haug2 & Hev)];
    [by destruct (augment_not_encoder _ _ _ _ Hev) |].
  apply elem_of_trace_bind in Hev as [Hev | (test_df & Haug3 & Hev)];
    [by destruct (augment_not_encoder _ _ _ _ Hev) |].
  apply augment_base in Haug1, Haug2, Haug3.
  apply elem_of_trace_bind in Hev as [Hev | (y & Hy & Hev)];
    [by apply elem_of_nil in Hev |].
  simpl in Htrain, Hdev, Htest, Htrain', Hdev', Htest', Hy.
  rewrite Haug1 in Hy.
  exists train, dev, test, train', dev', test', y.
  do 7 (split; [done |]).
  apply elem_of_trace_bind in Hev as [Hev | (le & _ & Hev)];
    [left; by apply list_elem_of_singleton in Hev |].
  right.
  apply elem_of_trace_bind in Hev as [Hev | (? & _ & Hev)].
  { apply encode_labels_events in Hev as (y' & Hy' & ->).
    exists train', y'. rewrite Haug1 in Hy'. split; [| done].
    set_solver. }
  apply elem_of_trace_bind in Hev as [Hev | (? & _ & Hev)].
  { apply encode_labels_events in Hev as (y' & Hy' & ->).
    exists dev', y'. rewrite Haug2 in Hy'. split; [| done].
    set_solver. }
  apply elem_of_trace_bind in Hev as [Hev | (? & _ & Hev)].
  { apply encode_labels_events in Hev as (y' & Hy' & ->).
    exists test', y'. rewrite Haug3 in Hy'. split; [| done].
    set_solver. }
  exfalso. refute_trace Hev.
Qed.

(** ** Claim about the dropped classes and the label encoder *)

(** C6.  In a run of [do_train_process] that reaches the fit of the
    label encoder, the three splits have been read and the rows whose
    label is one of [bad_classes] removed from each of them before: the
    encoder is fitted on the label column of the filtered training
    split, every label column handed to [transform] is free of those
    classes, and for any labels of the filtered training split, encoding
    them with the fitted encoder and decoding the result gives the same
    labels back. *)
Theorem labels_round_trip_after_filter
    (env : Env) (config : Config) (y : list string) :
  EFit y ∈ (do_train_process env config).1 →
  ∃ train dev test train' dev' test',
    read_csv env (os_path_join (data_dir config) "train.csv") = Ok train
    ∧ read_csv env (os_path_join (data_dir config) "dev.csv") = Ok dev
    ∧ read_csv env (os_path_join (data_dir config) "test.csv") = Ok test
    ∧ kept train train' ∧ kept dev dev' ∧ kept test test'
    ∧ label_column train' = Ok y
    ∧ Forall (λ l, l ∉ bad_classes) y
    ∧ (∀ y', ETransform y' ∈ (do_train_process env config).1 →
             (∃ df', df' ∈ [train'; dev'; test'] ∧ label_column df' = Ok y')
             ∧ Forall (λ l, l ∉ bad_classes) y')
    ∧ (∀ ys, ys ⊆ y →
         ∃ ids,
           LabelEncoder.transform (LabelEncoder.fit y) ys = Ok ids
           ∧ LabelEncoder.inverse_transform (LabelEncoder.fit y) ids = Ok ys).
Proof.
  intros Hfit.
  destruct (encoder_events_of_run env config _ Hfit eq_refl)
    as (train & dev & test & train' & dev' & test' & y0
        & Htrain & Hdev & Htest & Htrain' & Hdev' & Htest' & Hy & Hev).
  destruct Hev as [[= ->]|(? & ? & _ & _ & [=])].
  pose proof (drop_bad_classes_kept _ _ Htrain') as Hk1.
  pose proof (drop_bad_classes_kept _ _ Hdev') as Hk2.
  pose proof (drop_bad_classes_kept _ _ Htest') as Hk3.
  exists train, dev, test, train', dev', test'.
  do 7 (split; [done |]).
  split; [exact (kept_labels _ _ _ Hk1 Hy) |].
  split; [| apply label_round_trip].
  intros y' Htransform.
  destruct (encoder_events_of_run env config _ Htransform eq_refl)
    as (train2 & dev2 & test2 & train2' & dev2' & test2' & y2
        & Htrain2 & Hdev2 & Htest2 & Htrain2' & Hdev2' & Htest2' & _ & Hev).
  rewrite Htrain in Htrain2. injection Htrain2 as <-.
  rewrite Hdev in Hdev2. injection Hdev2 as <-.
  rewrite Htest in Htest2. injection Htest2 as <-.
  rewrite Htrain' in Htrain2'. injection Htrain2' as <-.
  rewrite Hdev' in Hdev2'. injection Hdev2' as <-.
  rewrite Htest' in Htest2'. injection Htest2' as <-.
  destruct Hev as [[=]|(df' & y2' & Hin & Hy2 & [= ->])].
  split; [by exists df' |].
  rewrite !elem_of_cons in Hin.
  destruct Hin as [->|[->|[->|Hin]]];
    [ exact (kept_labels _ _ _ Hk1 Hy2)
    | exact (kept_labels _ _ _ Hk2 Hy2)
    | exact (kept_labels _ _ _ Hk3 Hy2)
    | by apply elem_of_nil in Hin ].
Qed.

Lemma labels_round_trip_after_filter_witness :
  ∃ train dev test train' dev' test',
    read_csv sample_env "../data/final_data/train.csv" = Ok train
    ∧ read_csv sample_env "../data/final_data/dev.csv" = Ok dev
    ∧ read_csv sample_env "../data/final_data/test.csv" = Ok test
    ∧ kept train train' ∧ kept dev dev' ∧ kept test test'
    ∧ label_column train' = Ok ["ad hominem"; "false causality"]
    ∧ Forall (λ l, l ∉ bad_classes) ["ad hominem"; "false causality"]
    ∧ (∀ y', ETransform y'
               ∈ (do_train_process sample_env (sample_config "text")).1 →
             (∃ df', df' ∈ [train'; dev'; test'] ∧ label_column df' = Ok y')
             ∧ Forall (λ l, l ∉ bad_classes) y')
    ∧ (∀ ys, ys ⊆ ["ad hominem"; "false causality"] →
         ∃ ids,
           LabelEncoder.transform
             (LabelEncoder.fit ["ad hominem"; "false causality"]) ys = Ok ids
           ∧ LabelEncoder.inverse_transform
               (LabelEncoder.fit ["ad hominem"; "false causality"]) ids
             = Ok ys).
Proof.
  apply (labels_round_trip_after_filter sample_env (sample_config "text")
           ["ad hominem"; "false causality"]).
  apply (list_elem_of_lookup_2 _ 13). vm_compute. reflexivity.
Defined.

(** * Further properties of the script *)

(** ** More on [create_augmented_case] *)

Lemma for_each_app {A S} (body : S → A → result S) (xs ys : list A) :
  ∀ s, for_each (xs ++ ys) body s = for_each xs body s ≫= for_each ys body.
Proof.
  induction xs as [|x xs IH]; intros s; simpl; [done |].
  destruct (body s x) as [s'|]; simpl; [apply IH | done].
Qed.

Lemma getitem_None {V} (d : gmap string V) (key : string) :
  d !! key = None → getitem d key = Raise (KeyError key).
Proof. intros Hd. unfold getitem. by rewrite Hd. Qed.

Lemma own_feature_not_text (config : Config) :
  feature config ∈ ["structure"; "counter"] → feature config ≠ "text".
Proof.
  rewrite !elem_of_cons. intros [Hf|[Hf|Hf]] Heq;
    [| | by apply elem_of_nil in Hf]; by rewrite Hf in Heq.
Qed.

Lemma create_augmented_case_no_text
    (row : Row) (config : Config) (cases : list string) :
  feature config ∈ recognized_features →
  row !! "text" = None →
  create_augmented_case row config cases = Raise (KeyError "text").
Proof.
  intros [Hf|Hf]%recognized_features_split Htext;
    unfold create_augmented_case.
  - by rewrite (plain_feature_branch _ Hf), (getitem_None _ _ Htext).
  - destruct (own_feature_branch _ Hf) as [-> ->].
    by rewrite (getitem_None _ _ Htext).
Qed.

Lemma create_augmented_case_no_feature
    (row : Row) (config : Config) (c : string) (cases : list string)
    (original : string) :
  row !! "text" = Some original →
  feature config ∈ ["structure"; "counter"] →
  row !! feature config = None →
  create_augmented_case row config (c :: cases)
  = Raise (KeyError (feature config)).
Proof.
  intros Htext Hf Hown. unfold create_augmented_case.
  destruct (own_feature_branch _ Hf) as [-> ->].
  rewrite (getitem_Some _ _ _ Htext). simpl.
  by rewrite (getitem_None _ _ Hown).
Qed.

(** X1.  [create_augmented_case] returns a text exactly when the feature
    mode is recognized, the row has a text column and, in the modes
    structure and counter with at least one retrieved case, the row has
    the column of that feature. *)
Theorem create_augmented_case_succeeds_iff
    (row : Row) (config : Config) (cases : list string) :
  (∃ text, create_augmented_case row config cases = Ok text)
  ↔ feature config ∈ recognized_features
    ∧ is_Some (row !! "text")
    ∧ (feature config ∈ ["structure"; "counter"] → cases ≠ [] →
       is_Some (row !! feature config)).
Proof.
  split.
  - intros [text Hok].
    destruct (decide (feature config ∈ recognized_features)) as [Hf|Hf];
      [| by rewrite (create_augmented_case_unrecognized _ _ _ Hf) in Hok].
    split; [done |].
    destruct (row !! "text") as [original|] eqn:Htext;
      [| by rewrite (create_augmented_case_no_text _ _ _ Hf Htext) in Hok].
    split; [by eexists |].
    intros Hown Hcases. destruct cases as [|c cases]; [done |].
    destruct (row !! feature config) eqn:Hrow; [by eexists |].
    by rewrite (create_augmented_case_no_feature _ _ _ _ _ Htext Hown Hrow)
      in Hok.
  - intros (Hf & [original Htext] & Hown).
    apply recognized_features_split in Hf as [Hf|Hf].
    + eexists. by apply create_augmented_case_plain.
    + destruct cases as [|c cases].
      * exists original. apply create_augmented_case_nil; [done |].
        apply recognized_features_split. by right.
      * destruct (Hown Hf) as [own Hrow]; [done |].
        eexists. by eapply create_augmented_case_own_feature.
Qed.

(** X2.  In a recognized mode a row without a text column makes
    [create_augmented_case] raise [KeyError] for "text", even with no
    retrieved case; in the modes structure and counter a row with a text
    column but without the feature column makes it raise [KeyError] for
    that feature as soon as there is one retrieved case. *)
Theorem create_augmented_case_key_errors
    (row : Row) (config : Config) (cases : list string) :
  feature config ∈ recognized_features →
  (row !! "text" = None →
   create_augmented_case row config cases = Raise (KeyError "text"))
  ∧ (is_Some (row !! "text") →
     feature config ∈ ["structure"; "counter"] →
     row !! feature config = None →
     cases ≠ [] →
     create_augmented_case row config cases
     = Raise (KeyError (feature config))).
Proof.
  intros Hf. split.
  - by apply create_augmented_case_no_text.
  - intros [original Htext] Hown Hrow Hcases.
    destruct cases as [|c cases]; [done |].
    by eapply create_augmented_case_no_feature.
Qed.

Lemma create_augmented_case_key_errors_witness :
  create_augmented_case row_without_text (sample_config "goals") []
  = Raise (KeyError "text")
  ∧ create_augmented_case row_without_feature (sample_config "counter") ["A"]
    = Raise (KeyError "counter").
Proof.
  split.
  - refine (proj1 (create_augmented_case_key_errors row_without_text
                     (sample_config "goals") [] _) _).
    + apply (bool_decide_unpack _). vm_compute. reflexivity.
    + reflexivity.
  - refine (proj2 (create_augmented_case_key_errors row_without_feature
                     (sample_config "counter") ["A"] _) _ _ _ _).
    + apply (bool_decide_unpack _). vm_compute. reflexivity.
    + exists "orig". reflexivity.
    + apply (bool_decide_unpack _). vm_compute. reflexivity.
    + reflexivity.
    + discriminate.
Defined.

(** X3.  Augmenting with the cases [xs ++ ys] is augmenting with [xs]
    and then augmenting, with [ys], the row whose text is that result:
    the same text, or the same exception. *)
Theorem create_augmented_case_app
    (row : Row) (config : Config) (xs ys : list string) :
  create_augmented_case row config (xs ++ ys)
  = text ← create_augmented_case row config xs;
    create_augmented_case (<["text" := text]> row) config ys.
Proof.
  unfold create_augmented_case.
  destruct (contains ["text"; "explanations"; "goals"] (feature config))
    eqn:Hplain.
  - destruct (row !! "text") as [original|] eqn:Htext.
    + rewrite (getitem_Some _ _ _ Htext). simpl. rewrite for_each_app.
      destruct (for_each xs _ original) as [text|]; simpl; [| done].
      by rewrite (getitem_Some _ _ text (lookup_insert_eq row "text" text)).
    + by rewrite (getitem_None _ _ Htext).
  - destruct (contains ["structure"; "counter"] (feature config))
      eqn:Hown; [| done].
    apply contains_true, own_feature_not_text in Hown.
    destruct (row !! "text") as [original|] eqn:Htext.
    + rewrite (getitem_Some _ _ _ Htext). simpl. rewrite for_each_app.
      destruct (for_each xs _ original) as [text|]; simpl; [| done].
      rewrite (getitem_Some _ _ text (lookup_insert_eq row "text" text)).
      simpl. apply for_each_ext. intros acc c. unfold getitem.
      by rewrite lookup_insert_ne.
    + by rewrite (getitem_None _ _ Htext).
Qed.

Lemma segments_text_length (x : string) (l : list string) :
  String.length (segments_text (x :: l))
  = String.length x + sum_list_with (λ y, S (String.length y)) l.
Proof.
  revert x. induction l as [|y l IH]; intros x.
  - rewrite segments_text_singleton. simpl. lia.
  - change (segments_text (x :: y :: l))
      with (x +:+ " " +:+ segments_text (y :: l)).
    rewrite !string_length_app, IH. simpl. lia.
Qed.

Lemma sum_list_with_bind {A B} (f : B → nat) (g : A → list B) (l : list A) :
  sum_list_with f (l ≫= g) = sum_list_with (λ x, sum_list_with f (g x)) l.
Proof.
  induction l as [|x l IH]; [done |].
  rewrite bind_cons, sum_list_with_app, IH. done.
Qed.

Lemma sum_list_with_pointwise {A} (f g : A → nat) (l : list A) :
  (∀ x, f x = g x) → sum_list_with f l = sum_list_with g l.
Proof.
  intros Hfg. induction l as [|x l IH]; simpl; [done |]. by rewrite Hfg, IH.
Qed.

(** X4.  The length of the augmented text is the length of the original
    text plus, for each retrieved case, the lengths of the separator and
    of the case and two spaces; in the modes structure and counter, the
    lengths of two separators, of the feature value and of the case and
    four spaces. *)
Theorem augmented_text_length
    (row : Row) (config : Config) (cases : list string) (original : string) :
  row !! "text" = Some original →
  (feature config ∈ ["text"; "explanations"; "goals"] →
   ∃ text,
     create_augmented_case row config cases = Ok text
     ∧ String.length text
       = String.length original
         + sum_list_with
             (λ c, String.length (sep_token config) + String.length c + 2)
             cases)
  ∧ (∀ own,
       feature config ∈ ["structure"; "counter"] →
       row !! feature config = Some own →
       ∃ text,
         create_augmented_case row config cases = Ok text
         ∧ String.length text
           = String.length original
             + sum_list_with
                 (λ c, 2 * String.length (sep_token config)
                       + String.length own + String.length c + 4)
                 cases).
Proof.
  intros Htext. split.
  - intros Hf. eexists. split; [by apply create_augmented_case_plain |].
    rewrite segments_text_length. unfold plain_segments.
    rewrite sum_list_with_bind. f_equal.
    apply sum_list_with_pointwise. intros c. simpl. lia.
  - intros own Hf Hown. eexists.
    split; [by eapply create_augmented_case_own_feature |].
    rewrite segments_text_length. unfold own_feature_segments.
    rewrite sum_list_with_bind. f_equal.
    apply sum_list_with_pointwise. intros c. simpl. lia.
Qed.

Lemma augmented_text_length_witness :
  ∃ text,
    create_augmented_case sample_row (sample_config "structure") ["A"; "BC"]
    = Ok text
    ∧ String.length text = 4 + (16 + 17).
Proof.
  destruct (proj2 (augmented_text_length sample_row
                     (sample_config "structure") ["A"; "BC"] "orig" eq_refl)
              "F") as (text & Htext & Hlen).
  - apply (bool_decide_unpack _). vm_compute. reflexivity.
  - reflexivity.
  - exists text. split; [exact Htext | exact Hlen].
Defined.

(** X5.  The augmented text depends on the row through its text column
    only and, in the modes structure and counter, through the column of
    that feature: two rows that agree there give the same outcome, so
    in the modes explanations and goals the feature column never enters
    the augmented text. *)
Theorem create_augmented_case_reads_two_columns
    (row row' : Row) (config : Config) (cases : list string) :
  row !! "text" = row' !! "text" →
  (feature config ∈ ["structure"; "counter"] →
   row !! feature config = row' !! feature config) →
  create_augmented_case row config cases
  = create_augmented_case row' config cases.
Proof.
  intros Htext Hown. unfold create_augmented_case, getitem.
  rewrite Htext.
  destruct (contains ["text"; "explanations"; "goals"] (feature config));
    [done |].
  destruct (contains ["structure"; "counter"] (feature config)) eqn:Hf;
    [| done].
  apply contains_true in Hf. by rewrite (Hown Hf).
Qed.

Lemma create_augmented_case_reads_two_columns_witness :
  create_augmented_case sample_row (sample_config "goals") ["A"]
  = create_augmented_case (<["goals" := "to persuade"]> sample_row)
      (sample_config "goals") ["A"].
Proof.
  apply create_augmented_case_reads_two_columns.
  - reflexivity.
  - intros Hf. apply (bool_decide_pack _) in Hf. vm_compute in Hf.
    destruct Hf.
Defined.

(** ** More on [augment_with_similar_cases] *)

Lemma augment_row_Ok
    (rs : list Retriever) (config : Config) (row : Row) (y : AugRow) :
  (augment_row rs config row).2 = Ok y →
  Forall (catchable config row) rs
  ∧ y = mkAugRow row (augmented_cases y) (retrieved_cases config row rs)
          (retrieved_labels config row rs)
  ∧ create_augmented_case row config (retrieved_cases config row rs)
    = Ok (augmented_cases y).
Proof.
  rewrite augment_row_result.
  destruct (for_each rs _ _) as [lists|] eqn:Hlists; simpl; [| done].
  pose proof (collect_Ok_catchable _ _ _ _ _ Hlists) as Hc.
  rewrite (collect_catchable _ _ _ Hc) in Hlists. injection Hlists as <-.
  simpl.
  destruct (create_augmented_case row config _) as [text|] eqn:Htext;
    simpl; [| done].
  by intros [= <-].
Qed.

Lemma augment_Ok
    (df : list Row) (rs : list Retriever) (config : Config)
    (out : list AugRow) :
  (augment_with_similar_cases df rs config).2 = Ok out ↔
  Forall2 (λ row y, (augment_row rs config row).2 = Ok y) df out.
Proof.
  unfold augment_with_similar_cases. rewrite snd_bind, snd_mapM. simpl.
  apply mapR_Ok.
Qed.

Lemma retrieved_lengths (config : Config) (row : Row) (rs : list Retriever) :
  length (retrieved_cases config row rs)
  = length (retrieved_labels config row rs).
Proof.
  unfold retrieved_cases, retrieved_labels.
  induction rs as [|r rs IH]; [done |].
  by rewrite !bind_cons, !length_app, !length_fmap, IH.
Qed.

(** X6.  In the frame a completed augmentation returns, the rows are
    those of the input in the same order; in each row the retrieved
    cases and their labels are lists of one length, and the augmented
    text is the template applied to that row and those cases. *)
Theorem augmented_rows_are_consistent
    (df : list Row) (rs : list Retriever) (config : Config)
    (out : list AugRow) :
  (augment_with_similar_cases df rs config).2 = Ok out →
  base <$> out = df
  ∧ Forall (λ y,
              length (similar_cases y) = length (similar_cases_labels y)
              ∧ create_augmented_case (base y) config (similar_cases y)
                = Ok (augmented_cases y)) out.
Proof.
  intros Hout%augment_Ok.
  induction Hout as [|row y df out Hy _ [IHbase IHrows]]; [done |].
  apply augment_row_Ok in Hy as (_ & Hy & Htext).
  rewrite fmap_cons, IHbase. split.
  - by rewrite Hy.
  - constructor; [| done]. rewrite Hy. simpl. split; [| done].
    apply retrieved_lengths.
Qed.

Lemma augmented_rows_are_consistent_witness :
  base <$> sample_augmented = sample_df
  ∧ Forall (λ y,
              length (similar_cases y) = length (similar_cases_labels y)
              ∧ create_augmented_case (base y) (sample_config "text")
                  (similar_cases y)
                = Ok (augmented_cases y)) sample_augmented.
Proof.
  apply (augmented_rows_are_consistent sample_df [mock_retriever]).
  reflexivity.
Defined.

(** X7.  In a recognized mode, on a split whose rows all have a text
    column and with retrievers that raise nothing but errors, the
    augmentation completes; each row gets the cases and the labels of
    its retrievers in retriever order, those of a failing retriever
    left out. *)
Theorem augmentation_completes
    (df : list Row) (rs : list Retriever) (config : Config) :
  feature config ∈ recognized_features →
  Forall (λ row,
            is_Some (row !! "text") ∧ Forall (catchable config row) rs) df →
  ∃ out,
    (augment_with_similar_cases df rs config).2 = Ok out
    ∧ base <$> out = df
    ∧ similar_cases <$> out = (λ row, retrieved_cases config row rs) <$> df
    ∧ similar_cases_labels <$> out
      = (λ row, retrieved_labels config row rs) <$> df.
Proof.
  intros Hf Hrows.
  assert (∃ out,
            Forall2 (λ row y, (augment_row rs config row).2 = Ok y) df out
            ∧ base <$> out = df
            ∧ similar_cases <$> out
              = (λ row, retrieved_cases config row rs) <$> df
            ∧ similar_cases_labels <$> out
              = (λ row, retrieved_labels config row rs) <$> df)
    as (out & Hout & Hrest).
  { induction Hrows as [|row df [[original Htext] Hc] _
                          (out & Hout & Hb & Hs & Hl)].
    - exists []. by repeat split.
    - destruct (augment_row_completes rs config row original Htext Hf Hc)
        as [text Hrow].
      eexists (_ :: out).
      split; [constructor; [exact Hrow | exact Hout] |].
      rewrite !fmap_cons, Hb, Hs, Hl. done. }
  exists out. split; [by apply augment_Ok | done].
Qed.

Lemma augmentation_completes_witness :
  ∃ out,
    (augment_with_similar_cases sample_df [failing_retriever; mock_retriever]
       (sample_config "text")).2 = Ok out
    ∧ base <$> out = sample_df
    ∧ similar_cases <$> out
      = (λ row, retrieved_cases (sample_config "text") row
                  [failing_retriever; mock_retriever]) <$> sample_df
    ∧ similar_cases_labels <$> out
      = (λ row, retrieved_labels (sample_config "text") row
                  [failing_retriever; mock_retriever]) <$> sample_df.
Proof.
  apply augmentation_completes.
  - apply (bool_decide_unpack _). vm_compute. reflexivity.
  - unfold sample_df. simpl.
    repeat first
      [ apply Forall_nil_2
      | apply Forall_cons_2
      | (eexists; reflexivity)
      | split
      | (intros e He; vm_compute in He;
         first [discriminate He | by injection He as <-]) ].
Defined.

Lemma query_retriever_no_feature
    (row : Row) (config : Config) (acc : list string * list string)
    (r : Retriever) :
  row !! feature config = None →
  query_retriever row config acc r
  = ([EPrint ("'" +:+ feature config +:+ "'")], Ok acc).
Proof.
  intros Hnone. unfold query_retriever, getitem. by rewrite Hnone.
Qed.

Lemma retrievers_loop_no_feature
    (row : Row) (config : Config) (rs : list Retriever) :
  row !! feature config = None →
  ∀ acc,
    for_eachM rs (query_retriever row config) acc
    = (replicate (length rs) (EPrint ("'" +:+ feature config +:+ "'")),
       Ok acc).
Proof.
  intros Hnone. induction rs as [|r rs IH]; intros acc; [done |].
  rewrite for_eachM_cons, (query_retriever_no_feature _ _ _ _ Hnone).
  by rewrite bind_Ok, IH.
Qed.

Lemma augment_row_no_feature
    (rs : list Retriever) (config : Config) (row : Row) (original : string) :
  feature config ∈ recognized_features →
  row !! "text" = Some original →
  row !! feature config = None →
  augment_row rs config row
  = (replicate (length rs) (EPrint ("'" +:+ feature config +:+ "'")),
     Ok (mkAugRow row original [] [])).
Proof.
  intros Hf Htext Hnone. unfold augment_row.
  rewrite (retrievers_loop_no_feature _ _ _ Hnone), bind_Ok. simpl fst.
  rewrite (create_augmented_case_nil _ _ _ Htext Hf), lift_bind_Ok.
  simpl. by rewrite app_nil_r.
Qed.

Lemma mapM_cons {A B} (f : A → M B) (x : A) (xs : list A) :
  mapM f (x :: xs) = y ← f x; ys ← mapM f xs; mret (y :: ys).
Proof. done. Qed.

(** X8.  When no row has the column of the configured feature, the
    [KeyError] of every lookup is caught: no retriever is ever called,
    one message is printed per row and retriever, and every row keeps
    its text as augmented text, with no case and no label. *)
Theorem missing_feature_column_skips_retrieval
    (df : list Row) (rs : list Retriever) (config : Config) :
  feature config ∈ recognized_features →
  Forall (λ row, is_Some (row !! "text") ∧ row !! feature config = None) df →
  augment_with_similar_cases df rs config
  = (ETqdm (length df)
       :: replicate (length df * length rs)
            (EPrint ("'" +:+ feature config +:+ "'")),
     Ok ((λ row, mkAugRow row (default "" (row !! "text")) [] []) <$> df)).
Proof.
  intros Hf Hrows. unfold augment_with_similar_cases.
  rewrite call_bind_Ok.
  assert (mapM (augment_row rs config) df
          = (replicate (length df * length rs)
               (EPrint ("'" +:+ feature config +:+ "'")),
             Ok ((λ row, mkAugRow row (default "" (row !! "text")) [] [])
                   <$> df))) as ->; [| done].
  induction Hrows as [|row df [[original Htext] Hnone] _ IH]; [done |].
  rewrite mapM_cons, (augment_row_no_feature _ _ _ _ Hf Htext Hnone).
  rewrite bind_Ok, IH. simpl. rewrite Htext. simpl.
  by rewrite !app_nil_r, replicate_add.
Qed.

Lemma missing_feature_column_skips_retrieval_witness :
  augment_with_similar_cases [row_without_feature; row_without_feature]
    [mock_retriever] (sample_config "counter")
  = ([ETqdm 2; EPrint "'counter'"; EPrint "'counter'"],
     Ok [mkAugRow row_without_feature "orig" [] [];
         mkAugRow row_without_feature "orig" [] []]).
Proof.
  apply (missing_feature_column_skips_retrieval
           [row_without_feature; row_without_feature] [mock_retriever]
           (sample_config "counter")).
  - apply (bool_decide_unpack _). vm_compute. reflexivity.
  - repeat first
      [ apply Forall_nil_2 | apply Forall_cons_2
      | (eexists; reflexivity) | reflexivity | split ].
Defined.

(** X9.  [except Exception] does not catch what a retriever raises
    outside that class, [SystemExit] for one: if some retriever answers
    the query of some row that way, the augmentation does not
    complete. *)
Theorem uncaught_retriever_exception_aborts
    (df : list Row) (rs : list Retriever) (config : Config)
    (row : Row) (r : Retriever) (e : exn) :
  row ∈ df → r ∈ rs →
  answer config row r = Raise e →
  is_Exception e = false →
  ∃ e', (augment_with_similar_cases df rs config).2 = Raise e'.
Proof.
  intros Hrow Hr Hans Hexc.
  destruct (augment_with_similar_cases df rs config).2 as [out|e'] eqn:Hrun;
    [| by eexists].
  apply augment_Ok in Hrun.
  apply list_elem_of_lookup in Hrow as [i Hi].
  destruct (Forall2_lookup_l _ _ _ _ _ Hrun Hi) as (y & _ & Hy).
  apply augment_row_Ok in Hy as (Hc & _).
  rewrite Forall_forall in Hc. specialize (Hc r Hr e Hans). congruence.
Qed.

Lemma uncaught_retriever_exception_aborts_witness :
  ∃ e',
    (augment_with_similar_cases sample_df [mock_retriever; exiting_retriever]
       (sample_config "text")).2 = Raise e'.
Proof.
  apply (uncaught_retriever_exception_aborts sample_df
           [mock_retriever; exiting_retriever] (sample_config "text")
           {[ "text" := "t2"; "label" := "ad hominem" ]}
           exiting_retriever SystemExit).
  - apply (list_elem_of_lookup_2 _ 2). reflexivity.
  - apply (list_elem_of_lookup_2 _ 1). reflexivity.
  - reflexivity.
  - reflexivity.
Defined.

Lemma retrieved_cases_bounded
    (config : Config) (row : Row) (rs : list Retriever) :
  (∀ r case cases,
     r ∈ rs →
     retrieve_similar_cases r case (num_cases config) (cbr_threshold config)
     = Ok cases →
     length cases ≤ num_cases config) →
  length (retrieved_cases config row rs) ≤ num_cases config * length rs.
Proof.
  unfold retrieved_cases. induction rs as [|r rs IH]; intros Hk.
  - simpl. lia.
  - rewrite bind_cons, length_app, length_fmap. simpl length.
    assert (length (retrieved config row r) ≤ num_cases config) as Hr.
    { unfold retrieved, answer, getitem.
      destruct (row !! feature config) as [case|]; simpl; [| lia].
      destruct (retrieve_similar_cases r case _ _) as [cases|] eqn:Hcase;
        simpl; [| lia].
      eapply Hk; [by left | done]. }
    assert (length (rs ≫= λ r0, similar_case <$> retrieved config row r0)
            ≤ num_cases config * length rs) as Hrs.
    { apply IH. intros r' case cases Hin. apply Hk. by right. }
    lia.
Qed.

(** X10.  If every retriever keeps to its contract and returns at most
    [num_cases] cases for a query, each row of a completed augmentation
    holds at most [num_cases] cases per retriever. *)
Theorem similar_cases_bounded
    (df : list Row) (rs : list Retriever) (config : Config)
    (out : list AugRow) :
  (∀ r case cases,
     r ∈ rs →
     retrieve_similar_cases r case (num_cases config) (cbr_threshold config)
     = Ok cases →
     length cases ≤ num_cases config) →
  (augment_with_similar_cases df rs config).2 = Ok out →
  Forall (λ y, length (similar_cases y) ≤ num_cases config * length rs) out.
Proof.
  intros Hk Hout%augment_Ok.
  induction Hout as [|row y df out Hy _ IH]; constructor; [| done].
  apply augment_row_Ok in Hy as (_ & -> & _). simpl.
  by apply retrieved_cases_bounded.
Qed.

Lemma similar_cases_bounded_witness :
  Forall (λ y, length (similar_cases y) ≤ 1 * 1) sample_augmented.
Proof.
  apply (similar_cases_bounded sample_df [mock_retriever]
           (sample_config "text") sample_augmented).
  - intros r case cases Hr%list_elem_of_singleton Hcases. subst r.
    simpl in Hcases. injection Hcases as <-. simpl. lia.
  - reflexivity.
Defined.

(** X11.  With a feature mode that is not recognized the augmentation
    completes on an empty split only: the missing assignment shows at
    the first row. *)
Theorem unrecognized_feature_passes_empty_split_only
    (df : list Row) (rs : list Retriever) (config : Config) :
  feature config ∉ recognized_features →
  (∃ out, (augment_with_similar_cases df rs config).2 = Ok out) ↔ df = [].
Proof.
  intros Hf. split.
  - intros [out Hout%augment_Ok].
    destruct Hout as [|row y df out Hy _]; [done |].
    apply augment_row_Ok in Hy as (_ & _ & Hy).
    by rewrite (create_augmented_case_unrecognized _ _ _ Hf) in Hy.
  - intros ->. by exists [].
Qed.

Lemma unrecognized_feature_passes_empty_split_only_witness :
  (∃ out,
     (augment_with_similar_cases [sample_row] [mock_retriever]
        (sample_config "premise")).2 = Ok out)
  ↔ [sample_row] = [].
Proof.
  apply unrecognized_feature_passes_empty_split_only.
  apply (bool_decide_unpack _). vm_compute. reflexivity.
Defined.

(** ** More on the classifier and its training wrapper *)

Section Classifier.
Context `{Torch}.
Import ElectraForSequenceClassification CustomTrainer.

Lemma forward_tuple_without_return_dict (model : t) (a : Args) (out : Output) :
  return_dict a = None →
  use_return_dict (config model) = false →
  forward model a = Ok out →
  ∃ l lg rest, out = Tuple l lg rest.
Proof.
  unfold forward. intros -> ->. cbv zeta.
  destruct (electra model (input_ids a) _ _ _) as [h|]; simpl; [| done].
  destruct (electra model (input_ids_cbr a) _ _ _) as [h'|]; simpl; [| done].
  destruct (attention model _ _ _) as [fused|]; simpl; [| done].
  destruct (ElectraClassificationHead.forward _ _) as [lg|]; simpl; [| done].
  destruct (match labels a with Some _ => _ | None => _ end) as [l|];
    simpl; [| done].
  intros [= <-]. by eexists _, _, _.
Qed.

(** X12.  The labels passed to [forward] reach nothing but the loss:
    the pass without them succeeds as well and returns the same output
    with the loss removed.  When the problem type of the configuration
    is set, no loss is returned even though labels are given. *)
Theorem forward_labels_only_set_the_loss
    (model : t) (a : Args) (out : Output) :
  forward model a = Ok out →
  forward model (without_labels a) = Ok (with_loss None out)
  ∧ (problem_type (config model) ≠ None → loss_of out = None).
Proof.
  unfold forward, without_labels. simpl.
  generalize (match return_dict a with
              | Some b => b
              | None => use_return_dict (config model)
              end).
  intros rd.
  destruct (electra model (input_ids a) _ _ _) as [h|]; simpl; [| done].
  destruct (electra model (input_ids_cbr a) _ _ _) as [h'|]; simpl; [| done].
  destruct (attention model _ _ _) as [fused|]; simpl; [| done].
  destruct (ElectraClassificationHead.forward _ _) as [lg|]; simpl; [| done].
  destruct (labels a) as [lab|]; simpl.
  - destruct (problem_type (config model)) as [p|]; simpl.
    + destruct rd; simpl; intros [= <-]; by split.
    + destruct (BCEWithLogitsLoss lg lab) as [l|]; simpl; [| done].
      destruct rd; simpl; intros [= <-]; by split.
  - destruct rd; simpl; intros [= <-]; by split.
Qed.

(** X13.  [compute_loss] reads the outputs with [get], so it needs the
    model to return a dictionary: with [use_return_dict] off in the
    configuration of the model it returns no loss for any batch, and
    when the forward pass itself succeeds what it raises is
    [AttributeError]. *)
Theorem compute_loss_needs_return_dict
    (model : t) (inputs : gmap string Tensor) (return_outputs : bool) :
  use_return_dict (config model) = false →
  (∃ e, compute_loss model inputs return_outputs = Raise e)
  ∧ (∀ ids mask ids_cbr mask_cbr out,
       inputs !! "input_ids" = Some ids →
       inputs !! "attention_mask" = Some mask →
       inputs !! "input_ids_cbr" = Some ids_cbr →
       inputs !! "attention_mask_cbr" = Some mask_cbr →
       forward model (wrapper_call ids mask ids_cbr mask_cbr) = Ok out →
       compute_loss model inputs return_outputs
       = Raise (AttributeError "'tuple' object has no attribute 'get'")).
Proof.
  intros Hdict.
  assert (∀ ids mask ids_cbr mask_cbr out,
            inputs !! "input_ids" = Some ids →
            inputs !! "attention_mask" = Some mask →
            inputs !! "input_ids_cbr" = Some ids_cbr →
            inputs !! "attention_mask_cbr" = Some mask_cbr →
            forward model (wrapper_call ids mask ids_cbr mask_cbr) = Ok out →
            compute_loss model inputs return_outputs
            = Raise (AttributeError "'tuple' object has no attribute 'get'"))
    as Hattr.
  { intros ids mask ids_cbr mask_cbr out Hids Hmask Hids_cbr Hmask_cbr Hout.
    destruct (forward_tuple_without_return_dict model
                (wrapper_call ids mask ids_cbr mask_cbr) out eq_refl Hdict
                Hout) as (l & lg & rest & ->).
    unfold compute_loss.
    rewrite (getitem_Some _ _ _ Hids), (getitem_Some _ _ _ Hmask),
      (getitem_Some _ _ _ Hids_cbr), (getitem_Some _ _ _ Hmask_cbr).
    simpl. unfold wrapper_call in Hout. by rewrite Hout. }
  split; [| exact Hattr].
  destruct (inputs !! "input_ids") as [ids|] eqn:Hids;
    [| unfold compute_loss; rewrite (getitem_None _ _ Hids); by eexists].
  destruct (inputs !! "attention_mask") as [mask|] eqn:Hmask;
    [| unfold compute_loss;
       rewrite (getitem_Some _ _ _ Hids), (getitem_None _ _ Hmask);
       by eexists].
  destruct (inputs !! "input_ids_cbr") as [ids_cbr|] eqn:Hids_cbr;
    [| unfold compute_loss;
       rewrite (getitem_Some _ _ _ Hids), (getitem_Some _ _ _ Hmask),
         (getitem_None _ _ Hids_cbr);
       by eexists].
  destruct (inputs !! "attention_mask_cbr") as [mask_cbr|] eqn:Hmask_cbr;
    [| unfold compute_loss;
       rewrite (getitem_Some _ _ _ Hids), (getitem_Some _ _ _ Hmask),
         (getitem_Some _ _ _ Hids_cbr), (getitem_None _ _ Hmask_cbr);
       by eexists].
  destruct (forward model (wrapper_call ids mask ids_cbr mask_cbr))
    as [out|e] eqn:Hout.
  - eexists. by eapply Hattr.
  - unfold compute_loss.
    rewrite (getitem_Some _ _ _ Hids), (getitem_Some _ _ _ Hmask),
      (getitem_Some _ _ _ Hids_cbr), (getitem_Some _ _ _ Hmask_cbr).
    simpl. unfold wrapper_call in Hout. rewrite Hout. by eexists.
Qed.

(** X14.  A batch that lacks one of the four input tensors makes
    [compute_loss] raise [KeyError] for the first missing key, in the
    order input_ids, attention_mask, input_ids_cbr, attention_mask_cbr,
    whatever the model is. *)
Theorem compute_loss_missing_input
    (model : t) (inputs : gmap string Tensor) (return_outputs : bool)
    (present : list string) (missing : string) (later : list string) :
  ["input_ids"; "attention_mask"; "input_ids_cbr"; "attention_mask_cbr"]
  = present ++ missing :: later →
  Forall (λ key, is_Some (inputs !! key)) present →
  inputs !! missing = None →
  compute_loss model inputs return_outputs = Raise (KeyError missing).
Proof.
  intros Hkeys Hpresent Hmissing. unfold compute_loss.
  destruct present as [|k1 [|k2 [|k3 [|k4 rest]]]]; simplify_eq/=;
    repeat match goal with
           | Hp : Forall _ (_ :: _) |- _ =>
               let Hk := fresh "Hk" in
               apply Forall_cons in Hp as [[? Hk] Hp];
               rewrite (getitem_Some _ _ _ Hk); simpl
           end;
    try (by rewrite (getitem_None _ _ Hmissing)).
  match goal with
  | Hnil : [] = ?l ++ _ |- _ => by destruct l
  end.
Qed.

End Classifier.

Lemma forward_labels_only_set_the_loss_witness :
  @ElectraForSequenceClassification.forward sample_torch sample_model
    (@ElectraForSequenceClassification.without_labels sample_torch
       sample_args)
  = Ok (ElectraForSequenceClassification.Dict
          (@ElectraForSequenceClassification.mkSequenceClassifierOutput
             sample_torch None 15%Z None None)).
Proof.
  refine (proj1 (@forward_labels_only_set_the_loss sample_torch sample_model
                   sample_args
                   (ElectraForSequenceClassification.Dict
                      (@ElectraForSequenceClassification.mkSequenceClassifierOutput
                         sample_torch (Some 20%Z) 15%Z None None)) _)).
  reflexivity.
Defined.

Lemma compute_loss_needs_return_dict_witness :
  @CustomTrainer.compute_loss sample_torch sample_tuple_model sample_batch
    true
  = Raise (AttributeError "'tuple' object has no attribute 'get'").
Proof.
  refine (proj2 (@compute_loss_needs_return_dict sample_torch
                   sample_tuple_model sample_batch true _)
            3%Z 1%Z 4%Z 1%Z
            (@ElectraForSequenceClassification.Tuple sample_torch None 15%Z
               [])
            _ _ _ _ _);
    reflexivity.
Defined.

Lemma compute_loss_missing_input_witness :
  @CustomTrainer.compute_loss sample_torch sample_model
    (delete "input_ids_cbr" sample_batch) false
  = Raise (KeyError "input_ids_cbr").
Proof.
  apply (@compute_loss_missing_input sample_torch sample_model
           (delete "input_ids_cbr" sample_batch) false
           ["input_ids"; "attention_mask"] "input_ids_cbr"
           ["attention_mask_cbr"]).
  - reflexivity.
  - repeat first
      [ apply Forall_nil_2 | apply Forall_cons_2 | (eexists; reflexivity) ].
  - reflexivity.
Defined.

(** ** More on [save_results] *)


Lemma mapR_lookup_Ok {A B} (f : A → result B) (xs : list A) (ys : list B) :
  mapR f xs = Ok ys →
  ∀ i x, xs !! i = Some x → ∃ y, ys !! i = Some y ∧ f x = Ok y.
Proof.
  intros Hmap%mapR_Ok i x Hi.
  destruct (Forall2_lookup_l _ _ _ _ _ Hmap Hi) as (y & Hy & Hfx).
  by exists y.
Qed.



(** X16.  In the bundle [save_results] hands to [joblib.dump], the four
    lists are aligned with the test split: at the position of a row
    stand its text, its augmented text, its retrieved cases and their
    labels. *)
Theorem results_bundle_is_aligned
    (env : Env) (config : Config) (label_encoder : LabelEncoder.t)
    (predictions : PredictionOutput) (test_df : list EncRow)
    (value : outputs_dict) (filename : string) :
  EDump value filename
    ∈ (save_results env config label_encoder predictions test_df).1 →
  ∀ i r,
    test_df !! i = Some r →
    out_text value !! i = base (aug r) !! "text"
    ∧ out_augmented_cases value !! i = Some (augmented_cases (aug r))
    ∧ out_similar_cases value !! i = Some (similar_cases (aug r))
    ∧ out_similar_cases_labels value !! i
      = Some (similar_cases_labels (aug r)).
Proof.
  unfold save_results.
  destruct (mapR (λ r, getitem (base (aug r)) "text") test_df)
    as [text|e] eqn:Hcol.
  - rewrite lift_bind_Ok. cbv zeta.
    intros [= -> _]%list_elem_of_singleton i r Hi. simpl.
    destruct (mapR_lookup_Ok _ _ _ Hcol i r Hi) as (t & Ht & Hget).
    apply getitem_Ok in Hget.
    rewrite Ht, Hget, !list_lookup_fmap, Hi. done.
  - by intros ?%elem_of_nil.
Qed.

Lemma results_bundle_is_aligned_witness :
  out_text sample_bundle !! 0 = sample_row !! "text"
  ∧ out_augmented_cases sample_bundle !! 0 = Some "orig [SEP] A"
  ∧ out_similar_cases sample_bundle !! 0 = Some ["A"]
  ∧ out_similar_cases_labels sample_bundle !! 0 = Some ["ad hominem"].
Proof.
  refine (results_bundle_is_aligned sample_env (sample_config "text")
            (LabelEncoder.fit ["ad hominem"]) (mkPredictionOutput [] [] [])
            sample_test_df sample_bundle "res2.joblib" _ 0
            (mkEncRow (mkAugRow sample_row "orig [SEP] A" ["A"]
                         ["ad hominem"]) 0)
            _).
  - apply (list_elem_of_lookup_2 _ 0). reflexivity.
  - reflexivity.
Defined.

(** ** More on [do_train_process] *)




Lemma load_retrievers_events (env : Env) (config : Config)
    (names : list string) (acc : list Retriever) (ev : event) :
  ev ∈ (for_eachM names (load_retriever env config) acc).1 →
  setup_event ev = true.
Proof.
  intros Hev. pose proof (load_retrievers_setup env config names acc) as Hs.
  rewrite Forall_forall in Hs. by apply Hs.
Qed.

Lemma augment_events
    (df : list Row) (rs : list Retriever) (config : Config) (ev : event) :
  ev ∈ (augment_with_similar_cases df rs config).1 →
  augmentation_event ev = true.
Proof.
  intros Hev. pose proof (augment_trace df rs config) as Ha.
  rewrite Forall_forall in Ha. by apply Ha.
Qed.

(** Splits the membership of a call in a trace of the driver into the
    calls it can be. *)
Ltac trace_cases Hev :=
  lazymatch type of Hev with
  | _ ∈ (augment_with_similar_cases _ _ _).1 => apply augment_events in Hev
  | _ ∈ (for_eachM _ (load_retriever _ _) _).1 =>
      apply load_retrievers_events in Hev
  | _ ∈ (encode_labels _ _).1 =>
      apply encode_labels_events in Hev as (? & _ & Hev)
  | _ ∈ (process _ _ _).1 => unfold process in Hev; trace_cases Hev
  | _ ∈ (save_results _ _ _ _ _).1 =>
      unfold save_results in Hev; cbv zeta in Hev; trace_cases Hev
  | _ ∈ (print _).1 => apply list_elem_of_singleton in Hev
  | _ ∈ (call _ _).1 => apply list_elem_of_singleton in Hev
  | _ ∈ (lift _).1 => by apply elem_of_nil in Hev
  | _ ∈ (mret _).1 => by apply elem_of_nil in Hev
  | _ ∈ (if ?b then _ else _).1 =>
      destruct b eqn:?; cbv beta iota zeta delta [negb] in Hev;
      trace_cases Hev
  | _ ∈ (_ ≫= _).1 =>
      apply elem_of_trace_bind in Hev as [Hev | (? & _ & Hev)];
      [trace_cases Hev | trace_cases Hev]
  | _ => cbv zeta in Hev; trace_cases Hev
  end.

(** X18.  In every run, the tokenizer and the model are loaded from
    [model_dir] when [eval_only] is set and from the fixed checkpoint
    otherwise, and [trainer.train] and [trainer.save_model] are called
    only when [eval_only] is off. *)
Theorem run_respects_eval_only (env : Env) (config : Config) :
  Forall (respects_eval_only config) (do_train_process env config).1.
Proof.
  apply Forall_forall. intros ev Hev. unfold do_train_process in Hev.
  trace_cases Hev; subst; try done.
  all: try (by destruct ev).
  all: unfold respects_eval_only, pretrained_path; simpl.
  all: by destruct (eval_only config).
Qed.

Lemma bind_Ok_inv {A B} (m : M A) (f : A → M B) (b : B) :
  (m ≫= f).2 = Ok b →
  ∃ a, m.2 = Ok a ∧ (f a).2 = Ok b ∧ (m ≫= f).1 = m.1 ++ (f a).1.
Proof.
  destruct m as [t [a|e]]; simpl; [| done]. intros Hb. by exists a.
Qed.

Lemma ends_with_dump_app (t1 t2 : list event) :
  (∀ ev, ev ∈ t1 → ∀ value filename, ev ≠ EDump value filename) →
  ends_with_dump t2 → ends_with_dump (t1 ++ t2).
Proof.
  intros Ht1 (before & value & -> & Hbefore).
  exists (t1 ++ before), value. split; [by rewrite app_assoc |].
  unfold dump_targets in *. rewrite omap_app, Hbefore, app_nil_r.
  clear Hbefore. induction t1 as [|ev t1 IH]; [done |].
  simpl. destruct ev; try (apply IH; intros; apply Ht1; by right).
  by destruct (Ht1 (EDump value0 filename) (list_elem_of_here _ _)
                 value0 filename).
Qed.

(** One step along a run that completes: the calls made so far hold no
    dump. *)
Ltac ok_step H :=
  apply bind_Ok_inv in H as (? & _ & H & ->);
  apply ends_with_dump_app;
  [ let ev := fresh "ev" in
    let Hev := fresh "Hev" in
    intros ev Hev ? ?; trace_cases Hev; subst; try done; by destruct ev
  | ].

(** X19.  A run of [do_train_process] that completes has made exactly
    one call to [joblib.dump], to "res2.joblib", and that call is its
    last. *)
Theorem completed_run_ends_with_dump (env : Env) (config : Config) :
  (do_train_process env config).2 = Ok () →
  ends_with_dump (do_train_process env config).1.
Proof.
  intros Hok. unfold do_train_process in *.
  repeat ok_step Hok.
  unfold save_results in *. cbv zeta in *.
  repeat ok_step Hok.
  by eexists [], _.
Qed.

Lemma transform_Ok_subset (le : LabelEncoder.t) (y : list string)
    (ids : list nat) :
  LabelEncoder.transform le y = Ok ids → y ⊆ LabelEncoder.classes_ le.
Proof.
  unfold LabelEncoder.transform. intros Hids l Hl.
  destruct (mapR_lookup _ _ _ Hids l Hl) as (i & Hi & _).
  destruct (LabelEncoder.index (LabelEncoder.classes_ le) l) as [j|] eqn:Hj;
    [| done].
  clear -Hj. revert j Hj.
  induction (LabelEncoder.classes_ le) as [|c cs IH]; intros j Hj; [done |].
  simpl in Hj. case_bool_decide as Hc; [subst; by left |].
  destruct (LabelEncoder.index cs l) as [k|] eqn:Hk; [| done].
  right. by eapply IH.
Qed.

Lemma transform_subset_Ok (le : LabelEncoder.t) (y : list string) :
  y ⊆ LabelEncoder.classes_ le →
  ∃ ids,
    LabelEncoder.transform le y = Ok ids
    ∧ Forall2 (λ l i, LabelEncoder.classes_ le !! i = Some l) y ids.
Proof.
  unfold LabelEncoder.transform.
  induction y as [|l y IH]; intros Hsub; [by exists [] |].
  apply list_subseteq_cons_iff in Hsub as [Hl Hsub].
  destruct (IH Hsub) as (ids & Hids & Hall).
  destruct (index_elem_of _ _ Hl) as (i & Hi & Hli).
  exists (i :: ids). simpl. rewrite Hi. simpl. rewrite Hids.
  split; [done | by constructor].
Qed.

Lemma transform_unseen (le : LabelEncoder.t) (y : list string) :
  ¬ y ⊆ LabelEncoder.classes_ le →
  LabelEncoder.transform le y = Raise LabelEncoder.unseen.
Proof.
  intros Hnot.
  destruct (LabelEncoder.transform le y) as [ids|e] eqn:Hy.
  - by apply transform_Ok_subset in Hy.
  - clear Hnot. unfold LabelEncoder.transform in Hy. revert e Hy.
    induction y as [|l y IH]; intros e Hy; [done |].
    simpl in Hy.
    destruct (LabelEncoder.index (LabelEncoder.classes_ le) l); simpl in Hy;
      [| by injection Hy as <-].
    destruct (mapR _ y) as [ids|e'] eqn:Hrest; simpl in Hy; [done |].
    injection Hy as <-. by rewrite (IH e' eq_refl).
Qed.

(** X20.  Replacing the label column of a split by its encoding
    succeeds when every label of the split is a class of the encoder:
    the rows are kept in order and the identifier of each row is the
    position of its label among the classes.  Otherwise the call to
    [transform] raises [ValueError] and the split is left as it was. *)
Theorem encode_labels_outcome
    (le : LabelEncoder.t) (df : list AugRow) (y : list string) :
  label_column (base <$> df) = Ok y →
  (y ⊆ LabelEncoder.classes_ le →
   ∃ enc,
     encode_labels le df = ([ETransform y], Ok enc)
     ∧ aug <$> enc = df
     ∧ Forall (λ r, LabelEncoder.classes_ le !! label r
                    = base (aug r) !! "label") enc)
  ∧ (¬ y ⊆ LabelEncoder.classes_ le →
     encode_labels le df = ([ETransform y], Raise LabelEncoder.unseen)).
Proof.
  intros Hy. unfold encode_labels. rewrite Hy, lift_bind_Ok. split.
  - intros Hsub. destruct (transform_subset_Ok _ _ Hsub) as (ids & -> & Hids).
    rewrite call_bind_Ok. simpl. eexists. split; [done |].
    apply mapR_Ok in Hy. rewrite Forall2_fmap_l in Hy.
    clear Hsub. revert ids Hids.
    induction Hy as [|r l df y Hr _ IH]; intros ids Hids.
    + by inversion Hids.
    + inversion Hids as [|? i ? ids' Hi Hids']; subst.
      change (zip_with mkEncRow (r :: df) (i :: ids'))
        with (mkEncRow r i :: zip_with mkEncRow df ids').
      destruct (IH ids' Hids') as [Haug Hall].
      rewrite fmap_cons, Haug. split; [done |].
      constructor; [| done]. simpl. apply getitem_Ok in Hr. by rewrite Hr.
  - intros Hnot. by rewrite (transform_unseen _ _ Hnot).
Qed.



Lemma encode_labels_Ok
    (le : LabelEncoder.t) (df : list AugRow) (enc : list EncRow) :
  (encode_labels le df).2 = Ok enc →
  ∃ y, label_column (base <$> df) = Ok y ∧ y ⊆ LabelEncoder.classes_ le.
Proof.
  unfold encode_labels. intros Hok.
  apply bind_Ok_inv in Hok as (y & Hy & Hok & _). simpl in Hy.
  apply bind_Ok_inv in Hok as (ids & Hids & _ & _). simpl in Hids.
  exists y. split; [done | by eapply transform_Ok_subset].
Qed.

(** X21.  A run completes only if every label of the filtered
    training, dev and test splits is one the encoder was fitted on: a
    label of dev or test that the filtered training split lacks aborts
    the run. *)
Theorem completed_run_has_no_unseen_label
    (env : Env) (config : Config) (y y' : list string) :
  (do_train_process env config).2 = Ok () →
  EFit y ∈ (do_train_process env config).1 →
  ETransform y' ∈ (do_train_process env config).1 →
  y' ⊆ y.
Proof.
  intros Hok Hfit Htransform.
  destruct (encoder_events_of_run env config _ Hfit eq_refl)
    as (train & dev & test & train' & dev' & test' & y0
        & Htrain & Hdev & Htest & Htrain' & Hdev' & Htest' & Hy & Hev).
  destruct Hev as [[= <-]|(? & ? & _ & _ & [=])].
  destruct (encoder_events_of_run env config _ Htransform eq_refl)
    as (train2 & dev2 & test2 & train2' & dev2' & test2' & y2
        & Htrain2 & Hdev2 & Htest2 & Htrain2' & Hdev2' & Htest2' & _ & Hev).
  rewrite Htrain in Htrain2. injection Htrain2 as <-.
  rewrite Hdev in Hdev2. injection Hdev2 as <-.
  rewrite Htest in Htest2. injection Htest2 as <-.
  rewrite Htrain' in Htrain2'. injection Htrain2' as <-.
  rewrite Hdev' in Hdev2'. injection Hdev2' as <-.
  rewrite Htest' in Htest2'. injection Htest2' as <-.
  destruct Hev as [[=]|(df' & y2' & Hin & Hy2 & [= <-])].
  unfold do_train_process in Hok.
  apply bind_Ok_inv in Hok as (a1 & Ha1 & Hok & _).
  apply bind_Ok_inv in Hok as (a2 & Ha2 & Hok & _).
  apply bind_Ok_inv in Hok as (a3 & Ha3 & Hok & _).
  simpl in Ha1, Ha2, Ha3.
  rewrite Htrain in Ha1. injection Ha1 as <-.
  rewrite Hdev in Ha2. injection Ha2 as <-.
  rewrite Htest in Ha3. injection Ha3 as <-.
  apply bind_Ok_inv in Hok as (b1 & Hb1 & Hok & _).
  apply bind_Ok_inv in Hok as (b2 & Hb2 & Hok & _).
  apply bind_Ok_inv in Hok as (b3 & Hb3 & Hok & _).
  simpl in Hb1, Hb2, Hb3.
  rewrite Htrain' in Hb1. injection Hb1 as <-.
  rewrite Hdev' in Hb2. injection Hb2 as <-.
  rewrite Htest' in Hb3. injection Hb3 as <-.
  apply bind_Ok_inv in Hok as (rs & _ & Hok & _).
  apply bind_Ok_inv in Hok as (train_df & Haug1%augment_base & Hok & _).
  apply bind_Ok_inv in Hok as (dev_df & Haug2%augment_base & Hok & _).
  apply bind_Ok_inv in Hok as (test_df & Haug3%augment_base & Hok & _).
  apply bind_Ok_inv in Hok as (y1 & Hy1 & Hok & _). simpl in Hy1.
  rewrite Haug1, Hy in Hy1. injection Hy1 as <-.
  apply bind_Ok_inv in Hok as (le & Hle & Hok & _). simpl in Hle.
  injection Hle as <-.
  apply bind_Ok_inv in Hok as (e1 & He1%encode_labels_Ok & Hok & _).
  apply bind_Ok_inv in Hok as (e2 & He2%encode_labels_Ok & Hok & _).
  apply bind_Ok_inv in Hok as (e3 & He3%encode_labels_Ok & _ & _).
  destruct He1 as (z1 & Hz1 & Hs1), He2 as (z2 & Hz2 & Hs2),
    He3 as (z3 & Hz3 & Hs3).
  rewrite Haug1 in Hz1. rewrite Haug2 in Hz2. rewrite Haug3 in Hz3.
  assert (y' ⊆ LabelEncoder.unique y) as Hsub.
  { rewrite !elem_of_cons in Hin.
    destruct Hin as [->|[->|[->|Hin]]]; [| | | by apply elem_of_nil in Hin].
    - rewrite Hy2 in Hz1. by injection Hz1 as <-.
    - rewrite Hy2 in Hz2. by injection Hz2 as <-.
    - rewrite Hy2 in Hz3. by injection Hz3 as <-. }
  intros l Hl. apply elem_of_unique. by apply Hsub.
Qed.

Lemma completed_run_ends_with_dump_witness :
  ends_with_dump (do_train_process sample_env (sample_config "text")).1.
Proof.
  apply completed_run_ends_with_dump. vm_compute. reflexivity.
Defined.

Lemma encode_labels_outcome_witness :
  encode_labels (LabelEncoder.fit ["ad hominem"]) sample_aug_rows
  = ([ETransform ["ad hominem"; "false causality"]],
     Raise LabelEncoder.unseen).
Proof.
  refine (proj2 (encode_labels_outcome (LabelEncoder.fit ["ad hominem"])
                   sample_aug_rows ["ad hominem"; "false causality"] _) _).
  - reflexivity.
  - intros Hsub.
    assert ("false causality" ∈ ["ad hominem"; "false causality"]) as Hin
      by (apply (list_elem_of_lookup_2 _ 1); reflexivity).
    apply Hsub in Hin. apply (bool_decide_pack _) in Hin.
    vm_compute in Hin. destruct Hin.
Defined.

Lemma completed_run_has_no_unseen_label_witness :
  ["ad hominem"; "false causality"] ⊆ ["ad hominem"; "false causality"].
Proof.
  apply (completed_run_has_no_unseen_label sample_env (sample_config "text")).
  - vm_compute. reflexivity.
  - apply (list_elem_of_lookup_2 _ 13). vm_compute. reflexivity.
  - apply (list_elem_of_lookup_2 _ 15). vm_compute. reflexivity.
Defined.

Lemma run_respects_eval_only_witness :
  Forall (respects_eval_only sample_eval_config)
    (do_train_process sample_env sample_eval_config).1.
Proof. exact (run_respects_eval_only sample_env sample_eval_config). Defined.
